(** * Paperfold.js: the motion and collision engine of [src/paperfold.js]

    A shallow embedding of [Block], [positiveModulo], [moveBlock] (with its
    per-frame closure [animate]) and [stopMovingBlock], followed by the
    properties of the engine.

    JavaScript numbers are modelled as real numbers: arithmetic is exact.
    The two operations of the engine that can produce [NaN] from finite
    operands (a remainder by zero in [positiveModulo], the division [0 / 0]
    of a zero offset by a zero distance) are partial in the model. *)

From stdpp Require Import gmap strings functions.
From Stdlib Require Import Reals Lra Lia ZArith.

#[local] Open Scope R_scope.

(** ** Numbers *)

Module Num.

(** Comparisons of the source ([<], [<=], [>], [>=], [===] on numbers) as
    boolean tests. *)
Definition ltb (a b : R) : bool := if Rlt_dec a b then true else false.
Definition leb (a b : R) : bool := if Rle_dec a b then true else false.
Definition eqb (a b : R) : bool := if Req_dec_T a b then true else false.

(** Truncation toward zero, the rounding of the quotient in the
    remainder operator [%]. *)
Definition trunc (r : R) : Z :=
  if Rle_dec 0 r then Int_part r else (- Int_part (- r))%Z.

(** [i % n] for a non-zero [n]: the result has the sign of the dividend. *)
Definition rem (i n : R) : R := i - n * IZR (trunc (i / n)).

(** [Math.atan2(y, x)], without the signed zeros. *)
Definition atan2 (y x : R) : R :=
  if ltb 0 x then atan (y / x)
  else if ltb x 0 then (if leb 0 y then atan (y / x) + PI else atan (y / x) - PI)
  else if ltb 0 y then PI / 2
  else if ltb y 0 then - PI / 2
  else 0.

End Num.

Infix "<?" := Num.ltb : R_scope.
Infix "<=?" := Num.leb : R_scope.
Notation "a >? b" := (Num.ltb b a) (at level 70) : R_scope.
Notation "a >=? b" := (Num.leb b a) (at level 70) : R_scope.
Infix "=?" := Num.eqb : R_scope.

(** ** [positiveModulo] (source lines 188-190) *)

(** [(i % n + n) % n]; [None] stands for the [NaN] of a zero [n]. *)
Definition positiveModulo (i n : R) : option R :=
  if n =? 0 then None else Some (Num.rem (Num.rem i n + n) n).


(** ** Block (source lines 121-183) *)

Inductive Shape := square | circle.

(** The [options] object of the constructor. [None] is an absent
    property; numeric properties hold numbers and textual ones strings. *)
Module Options.

Record t := make {
  id : option string;
  shape : option string;
  x : option R;
  y : option R;
  size : option R;
  scale_x : option R;
  scale_y : option R;
  borderWidth : option R;
  borderColor : option string;
  level : option R;
  opaque : option R }.

(** [v || d] on a numeric property: [undefined] and [0] are falsy. *)
Definition or_number (v : option R) (d : R) : R :=
  match v with
  | Some r => if r =? 0 then d else r
  | None => d
  end.

(** [v || d] on a textual property: [undefined] and the empty string are
    falsy. *)
Definition or_string (v : option string) (d : string) : string :=
  match v with
  | Some s => if String.eqb s EmptyString then d else s
  | None => d
  end.

(** [v === undefined ? d : f v]. *)
Definition if_undefined (v : option R) (d : R) (f : R -> R) : R :=
  match v with
  | Some r => f r
  | None => d
  end.

End Options.

(** The values a caller can pass where the engine checks a type at run
    time: [typeof v === 'number'], [v instanceof Block], a component whose
    [updateBlockVisuals] is a function. *)
Inductive Value :=
| VUndefined
| VNull
| VBoolean (b : bool)
| VNumber (r : R)
| VString (s : string)
| VBlock (ref : nat)        (* an instance of Block *)
| VComponent (ref : nat)    (* an object with an updateBlockVisuals method *)
| VObject.                  (* any other object *)

Module Block.

Record t := make {
  id : string;
  shape : Shape;
  x : R;
  y : R;
  size : R;
  scale_x : R;
  scale_y : R;
  borderWidth : R;
  borderColor : string;
  level : R;
  opaque : R }.

Definition set_x (v : R) (b : t) : t :=
  make (id b) (shape b) v (y b) (size b) (scale_x b) (scale_y b)
       (borderWidth b) (borderColor b) (level b) (opaque b).

Definition set_y (v : R) (b : t) : t :=
  make (id b) (shape b) (x b) v (size b) (scale_x b) (scale_y b)
       (borderWidth b) (borderColor b) (level b) (opaque b).

Definition set_size (v : R) (b : t) : t :=
  make (id b) (shape b) (x b) (y b) v (scale_x b) (scale_y b)
       (borderWidth b) (borderColor b) (level b) (opaque b).

(** Lines 124 and 135-137: any shape other than ['circle'] ends as
    ['square']. *)
Definition shape_of_string (s : string) : Shape :=
  if String.eqb s "circle" then circle else square.

(** Lines 122-138. [generated] is the identifier the constructor builds
    from the clock and a random number when [options.id] is falsy. *)
Definition constructor (options : Options.t) (generated : string) : t :=
  {| id := Options.or_string (Options.id options) generated;
     shape := shape_of_string (Options.or_string (Options.shape options) "square");
     x := Options.or_number (Options.x options) 0;
     y := Options.or_number (Options.y options) 0;
     size := Options.or_number (Options.size options) 50;
     scale_x := Options.if_undefined (Options.scale_x options) 0 (fun v => v);
     scale_y := Options.if_undefined (Options.scale_y options) 0 (fun v => v);
     borderWidth := Options.or_number (Options.borderWidth options) 0;
     borderColor := Options.or_string (Options.borderColor options) "black";
     level := Options.or_number (Options.level options) 0;
     opaque := Options.if_undefined (Options.opaque options) 100
                 (fun v => Rmax 0 (Rmin 100 v)) |}.

Definition actualWidth (b : t) : R :=
  match shape b with
  | square => size b * (1 + scale_x b / 100)
  | circle => 2 * size b * (1 + scale_x b / 100)
  end.

Definition actualHeight (b : t) : R :=
  match shape b with
  | square => size b * (1 + scale_y b / 100)
  | circle => 2 * size b * (1 + scale_y b / 100)
  end.

Definition radiusX (b : t) : R :=
  match shape b with
  | circle => size b * (1 + scale_x b / 100)
  | square => 0
  end.

Definition radiusY (b : t) : R :=
  match shape b with
  | circle => size b * (1 + scale_y b / 100)
  | square => 0
  end.

Record bounds := Bounds { minX : R; minY : R; maxX : R; maxY : R }.

Definition getBounds (b : t) : bounds :=
  match shape b with
  | square => Bounds (x b) (y b) (x b + actualWidth b) (y b + actualHeight b)
  | circle => Bounds (x b - radiusX b) (y b - radiusY b)
                     (x b + radiusX b) (y b + radiusY b)
  end.

Definition moveTo (newX newY : R) (b : t) : t := set_y newY (set_x newX b).

Definition moveBy (deltaX deltaY : R) (b : t) : t :=
  set_y (y b + deltaY) (set_x (x b + deltaX) b).

(** Lines 178-182. *)
Definition resize (newSize : Value) (b : t) : t :=
  match newSize with
  | VNumber n => if n >=? 0 then set_size n b else b
  | _ => b
  end.

End Block.

(** ** The state of the engine *)

Inductive Boundary := front | back | pass | bounce.
Inductive Collision := c_stop | c_bounce | c_pass.

(** Lines 227-232: an unlisted policy is replaced by ['pass']. *)
Definition boundary_of_string (s : string) : Boundary :=
  if String.eqb s "front" then front
  else if String.eqb s "back" then back
  else if String.eqb s "bounce" then bounce
  else pass.

Definition collision_of_string (s : string) : Collision :=
  if String.eqb s "stop" then c_stop
  else if String.eqb s "bounce" then c_bounce
  else c_pass.

(** The [animationData] object of lines 487-497. Blocks, records and
    closures are objects of a heap and are named by references. *)
Module AnimationData.

Record t := make {
  animationFrameId : nat;
  blockId : string;
  owningComponent : nat;
  blockObject : nat;
  angle : R;
  pps : R;
  lastTime : R;
  currentSpeedX : R;
  currentSpeedY : R }.

Definition set_animationFrameId (v : nat) (a : t) : t :=
  make v (blockId a) (owningComponent a) (blockObject a) (angle a) (pps a)
       (lastTime a) (currentSpeedX a) (currentSpeedY a).

Definition set_angle (v : R) (a : t) : t :=
  make (animationFrameId a) (blockId a) (owningComponent a) (blockObject a) v
       (pps a) (lastTime a) (currentSpeedX a) (currentSpeedY a).

Definition set_currentSpeedX (v : R) (a : t) : t :=
  make (animationFrameId a) (blockId a) (owningComponent a) (blockObject a)
       (angle a) (pps a) (lastTime a) v (currentSpeedY a).

Definition set_currentSpeedY (v : R) (a : t) : t :=
  make (animationFrameId a) (blockId a) (owningComponent a) (blockObject a)
       (angle a) (pps a) (lastTime a) (currentSpeedX a) v.

End AnimationData.

(** The variables the closure [animate] of one [moveBlock] call captures:
    the parameters of the call, and the locals [blockId], [currentSpeedX],
    [currentSpeedY], [lastTime], [screenWidth], [screenHeight] and
    [animationData]. *)
Module Closure.

Record t := make {
  blockObject : nat;
  owningComponent : nat;
  boundary : Boundary;
  collision : Collision;
  allBlocks : list nat;
  blockId : string;
  currentSpeedX : R;
  currentSpeedY : R;
  lastTime : R;
  screenWidth : R;
  screenHeight : R;
  animationData : nat }.

Definition set_currentSpeedX (v : R) (e : t) : t :=
  make (blockObject e) (owningComponent e) (boundary e) (collision e)
       (allBlocks e) (blockId e) v (currentSpeedY e) (lastTime e)
       (screenWidth e) (screenHeight e) (animationData e).

Definition set_currentSpeedY (v : R) (e : t) : t :=
  make (blockObject e) (owningComponent e) (boundary e) (collision e)
       (allBlocks e) (blockId e) (currentSpeedX e) v (lastTime e)
       (screenWidth e) (screenHeight e) (animationData e).

Definition set_lastTime (v : R) (e : t) : t :=
  make (blockObject e) (owningComponent e) (boundary e) (collision e)
       (allBlocks e) (blockId e) (currentSpeedX e) (currentSpeedY e) v
       (screenWidth e) (screenHeight e) (animationData e).

End Closure.

(** One call [owningComponent.updateBlockVisuals(blockId, blockData)], with
    the position the block had at the call. *)
Record VisualCall := Visual {
  v_component : nat;
  v_blockId : string;
  v_x : R;
  v_y : R }.

Record World := mkWorld {
  blocks : nat -> Block.t;                 (* heap of Block objects *)
  records : nat -> AnimationData.t;        (* heap of animationData objects *)
  closures : nat -> Closure.t;             (* environments of the animate closures *)
  activeBlockAnimations : gmap string nat; (* line 186: block id to animationData *)
  frames : gmap nat nat;                   (* pending animation frames: handle to closure *)
  next_frame : nat;                        (* the handle requestAnimationFrame returns next *)
  next_object : nat;                       (* the next free reference *)
  timeouts : list (R * string);            (* pending setTimeout calls: delay, block id *)
  console : list string;                   (* console.error messages, latest first *)
  visuals : list VisualCall;               (* calls of updateBlockVisuals, latest first *)
  now : R;                                 (* performance.now() *)
  innerWidth : R;                          (* window.innerWidth *)
  innerHeight : R }.                       (* window.innerHeight *)

Definition with_blocks (f : (nat -> Block.t) -> (nat -> Block.t)) (w : World) : World :=
  mkWorld (f (blocks w)) (records w) (closures w) (activeBlockAnimations w)
          (frames w) (next_frame w) (next_object w) (timeouts w) (console w)
          (visuals w) (now w) (innerWidth w) (innerHeight w).

Definition with_records
  (f : (nat -> AnimationData.t) -> (nat -> AnimationData.t)) (w : World) : World :=
  mkWorld (blocks w) (f (records w)) (closures w) (activeBlockAnimations w)
          (frames w) (next_frame w) (next_object w) (timeouts w) (console w)
          (visuals w) (now w) (innerWidth w) (innerHeight w).

Definition with_closures
  (f : (nat -> Closure.t) -> (nat -> Closure.t)) (w : World) : World :=
  mkWorld (blocks w) (records w) (f (closures w)) (activeBlockAnimations w)
          (frames w) (next_frame w) (next_object w) (timeouts w) (console w)
          (visuals w) (now w) (innerWidth w) (innerHeight w).

Definition with_active (f : gmap string nat -> gmap string nat) (w : World) : World :=
  mkWorld (blocks w) (records w) (closures w) (f (activeBlockAnimations w))
          (frames w) (next_frame w) (next_object w) (timeouts w) (console w)
          (visuals w) (now w) (innerWidth w) (innerHeight w).

Definition with_frames (f : gmap nat nat -> gmap nat nat) (w : World) : World :=
  mkWorld (blocks w) (records w) (closures w) (activeBlockAnimations w)
          (f (frames w)) (next_frame w) (next_object w) (timeouts w) (console w)
          (visuals w) (now w) (innerWidth w) (innerHeight w).

(** In-place updates of one object. *)
Definition update_block (b : nat) (f : Block.t -> Block.t) : World -> World :=
  with_blocks (alter f b).

Definition update_record (r : nat) (f : AnimationData.t -> AnimationData.t)
  : World -> World :=
  with_records (alter f r).

Definition update_closure (c : nat) (f : Closure.t -> Closure.t) : World -> World :=
  with_closures (alter f c).

(** [console.error(message)]. *)
Definition console_error (message : string) (w : World) : World :=
  mkWorld (blocks w) (records w) (closures w) (activeBlockAnimations w)
          (frames w) (next_frame w) (next_object w) (timeouts w)
          (message :: console w) (visuals w) (now w) (innerWidth w) (innerHeight w).

(** [owningComponent.updateBlockVisuals(blockId, blockData)]: the seam to
    the presentation layer, recorded as a call. *)
Definition updateBlockVisuals (component : nat) (blockId : string) (blockData : nat)
    (w : World) : World :=
  mkWorld (blocks w) (records w) (closures w) (activeBlockAnimations w)
          (frames w) (next_frame w) (next_object w) (timeouts w) (console w)
          (Visual component blockId (Block.x (blocks w blockData))
                  (Block.y (blocks w blockData)) :: visuals w)
          (now w) (innerWidth w) (innerHeight w).

(** [requestAnimationFrame(animate)] for the closure [c]: the handle it
    returns and the state with the frame pending. *)
Definition requestAnimationFrame (c : nat) (w : World) : nat * World :=
  (next_frame w,
   mkWorld (blocks w) (records w) (closures w) (activeBlockAnimations w)
           (<[next_frame w := c]> (frames w)) (S (next_frame w)) (next_object w)
           (timeouts w) (console w) (visuals w) (now w) (innerWidth w)
           (innerHeight w)).

Definition cancelAnimationFrame (handle : nat) : World -> World :=
  with_frames (delete handle).

(** [setTimeout(() => stopMovingBlock(blockId), duration)]. *)
Definition setTimeout (duration : R) (blockId : string) (w : World) : World :=
  mkWorld (blocks w) (records w) (closures w) (activeBlockAnimations w)
          (frames w) (next_frame w) (next_object w)
          (timeouts w ++ [(duration, blockId)]) (console w) (visuals w) (now w)
          (innerWidth w) (innerHeight w).

(** The browser resizes the window. *)
Definition resize_window (width height : R) (w : World) : World :=
  mkWorld (blocks w) (records w) (closures w) (activeBlockAnimations w)
          (frames w) (next_frame w) (next_object w) (timeouts w) (console w)
          (visuals w) (now w) width height.

(** How a piece of the engine ends: it returns, it raises a [TypeError]
    (reading a property of [undefined]), or it computes a [NaN], where the
    model stops. The last two carry the state reached at that point. *)
Inductive Outcome (A : Type) :=
| Returned (a : A)
| Thrown (w : World)
| NotANumber (w : World).

Arguments Returned {A} a.
Arguments Thrown {A} w.
Arguments NotANumber {A} w.

Definition bind {A B : Type} (m : Outcome A) (k : A -> Outcome B) : Outcome B :=
  match m with
  | Returned a => k a
  | Thrown w => Thrown w
  | NotANumber w => NotANumber w
  end.

Notation "x <- m ;; k" := (bind m (fun x => k))
  (at level 100, m at next level, right associativity).

(** The state an outcome leaves behind. *)
Definition world_of (o : Outcome World) : World :=
  match o with
  | Returned w => w
  | Thrown w => w
  | NotANumber w => w
  end.

(** ** [stopMovingBlock] (source lines 511-516) *)

Definition stopMovingBlock (blockId : string) (w : World) : World :=
  match activeBlockAnimations w !! blockId with
  | Some r =>
      with_active (delete blockId)
        (cancelAnimationFrame (AnimationData.animationFrameId (records w r)) w)
  | None => w
  end.

(** ** The boundary logic of [animate] (source lines 262-370)

    Each policy is a function of the block, the velocity
    [(currentSpeedX, currentSpeedY)] and the extents
    [(screenWidth, screenHeight)] the closure holds. *)

(** Lines 262-285: the block and [stopAnimation]. *)
Definition boundary_front (b : Block.t)
    (currentSpeedX currentSpeedY screenWidth screenHeight : R) : Block.t * bool :=
  match Block.shape b with
  | square =>
      let '(b1, stopX) :=
        if (currentSpeedX >? 0) && (Block.x b + Block.actualWidth b >=? screenWidth)
        then (Block.set_x (screenWidth - Block.actualWidth b) b, true)
        else if (currentSpeedX <? 0) && (Block.x b <=? 0)
        then (Block.set_x 0 b, true)
        else (b, false) in
      let '(b2, stopY) :=
        if (currentSpeedY >? 0) && (Block.y b1 + Block.actualHeight b1 >=? screenHeight)
        then (Block.set_y (screenHeight - Block.actualHeight b1) b1, true)
        else if (currentSpeedY <? 0) && (Block.y b1 <=? 0)
        then (Block.set_y 0 b1, true)
        else (b1, false) in
      (b2, stopX || stopY)
  | circle =>
      let '(b1, stopX) :=
        if (currentSpeedX >? 0) && (Block.x b + Block.radiusX b >=? screenWidth)
        then (Block.set_x (screenWidth - Block.radiusX b) b, true)
        else if (currentSpeedX <? 0) && (Block.x b - Block.radiusX b <=? 0)
        then (Block.set_x (Block.radiusX b) b, true)
        else (b, false) in
      let '(b2, stopY) :=
        if (currentSpeedY >? 0) && (Block.y b1 + Block.radiusY b1 >=? screenHeight)
        then (Block.set_y (screenHeight - Block.radiusY b1) b1, true)
        else if (currentSpeedY <? 0) && (Block.y b1 - Block.radiusY b1 <=? 0)
        then (Block.set_y (Block.radiusY b1) b1, true)
        else (b1, false) in
      (b2, stopX || stopY)
  end.

(** Lines 286-310. *)
Definition boundary_back (b : Block.t)
    (currentSpeedX currentSpeedY screenWidth screenHeight : R) : Block.t * bool :=
  match Block.shape b with
  | square =>
      let '(b1, stopX) :=
        if (currentSpeedX >? 0) && (Block.x b >=? screenWidth)
        then (Block.set_x screenWidth b, true)
        else if (currentSpeedX <? 0) && (Block.x b + Block.actualWidth b <=? 0)
        then (Block.set_x (- Block.actualWidth b) b, true)
        else (b, false) in
      let '(b2, stopY) :=
        if (currentSpeedY >? 0) && (Block.y b1 >=? screenHeight)
        then (Block.set_y screenHeight b1, true)
        else if (currentSpeedY <? 0) && (Block.y b1 + Block.actualHeight b1 <=? 0)
        then (Block.set_y (- Block.actualHeight b1) b1, true)
        else (b1, false) in
      (b2, stopX || stopY)
  | circle =>
      let '(b1, stopX) :=
        if (currentSpeedX >? 0) && (Block.x b - Block.radiusX b >=? screenWidth)
        then (Block.set_x (screenWidth + Block.radiusX b) b, true)
        else if (currentSpeedX <? 0) && (Block.x b + Block.radiusX b <=? 0)
        then (Block.set_x (- Block.radiusX b) b, true)
        else (b, false) in
      let '(b2, stopY) :=
        if (currentSpeedY >? 0) && (Block.y b1 - Block.radiusY b1 >=? screenHeight)
        then (Block.set_y (screenHeight + Block.radiusY b1) b1, true)
        else if (currentSpeedY <? 0) && (Block.y b1 + Block.radiusY b1 <=? 0)
        then (Block.set_y (- Block.radiusY b1) b1, true)
        else (b1, false) in
      (b2, stopX || stopY)
  end.

(** What lines 311-351 leave: the block, the two speeds and [bounced]. *)
Record Bounce := mkBounce {
  bounce_block : Block.t;
  bounce_speedX : R;
  bounce_speedY : R;
  bounced : bool }.

(** Lines 311-351. *)
Definition boundary_bounce (b : Block.t)
    (currentSpeedX currentSpeedY screenWidth screenHeight : R) : Bounce :=
  match Block.shape b with
  | square =>
      let '(b1, speedX, bouncedX) :=
        if Block.x b <=? 0
        then (Block.set_x 0 b, currentSpeedX * (-1), true)
        else if Block.x b + Block.actualWidth b >=? screenWidth
        then (Block.set_x (screenWidth - Block.actualWidth b) b,
              currentSpeedX * (-1), true)
        else (b, currentSpeedX, false) in
      let '(b2, speedY, bouncedY) :=
        if Block.y b1 <=? 0
        then (Block.set_y 0 b1, currentSpeedY * (-1), true)
        else if Block.y b1 + Block.actualHeight b1 >=? screenHeight
        then (Block.set_y (screenHeight - Block.actualHeight b1) b1,
              currentSpeedY * (-1), true)
        else (b1, currentSpeedY, false) in
      mkBounce b2 speedX speedY (bouncedX || bouncedY)
  | circle =>
      let '(b1, speedX, bouncedX) :=
        if Block.x b - Block.radiusX b <=? 0
        then (Block.set_x (Block.radiusX b) b, currentSpeedX * (-1), true)
        else if Block.x b + Block.radiusX b >=? screenWidth
        then (Block.set_x (screenWidth - Block.radiusX b) b,
              currentSpeedX * (-1), true)
        else (b, currentSpeedX, false) in
      let '(b2, speedY, bouncedY) :=
        if Block.y b1 - Block.radiusY b1 <=? 0
        then (Block.set_y (Block.radiusY b1) b1, currentSpeedY * (-1), true)
        else if Block.y b1 + Block.radiusY b1 >=? screenHeight
        then (Block.set_y (screenHeight - Block.radiusY b1) b1,
              currentSpeedY * (-1), true)
        else (b1, currentSpeedY, false) in
      mkBounce b2 speedX speedY (bouncedX || bouncedY)
  end.

(** Lines 358-370; [None] when a world extent is zero and the remainder
    is [NaN]. *)
Definition boundary_pass (b : Block.t) (screenWidth screenHeight : R)
  : option Block.t :=
  match Block.shape b with
  | square =>
      let worldWidth := screenWidth + Block.actualWidth b in
      let worldHeight := screenHeight + Block.actualHeight b in
      match positiveModulo (Block.x b + Block.actualWidth b) worldWidth,
            positiveModulo (Block.y b + Block.actualHeight b) worldHeight with
      | Some mx, Some my =>
          Some (Block.set_y (my - Block.actualHeight b)
                  (Block.set_x (mx - Block.actualWidth b) b))
      | _, _ => None
      end
  | circle =>
      let worldWidth := screenWidth + 2 * Block.radiusX b in
      let worldHeight := screenHeight + 2 * Block.radiusY b in
      match positiveModulo (Block.x b + Block.radiusX b) worldWidth,
            positiveModulo (Block.y b + Block.radiusY b) worldHeight with
      | Some mx, Some my =>
          Some (Block.set_y (my - Block.radiusY b)
                  (Block.set_x (mx - Block.radiusX b) b))
      | _, _ => None
      end
  end.

(** ** [animate], the closure of [moveBlock] (source lines 247-485)

    [c] is the reference of the closure: its captured variables are read
    from, and written to, [closures w c]. *)

(** Lines 248-257: the elapsed time and the move of the block. *)
Definition integrate (c : nat) (currentTime : R) (w : World) : World :=
  let env := closures w c in
  let deltaTime := (currentTime - Closure.lastTime env) / 1000 in
  let calculatedDeltaX := Closure.currentSpeedX env * deltaTime in
  let calculatedDeltaY := Closure.currentSpeedY env * deltaTime in
  update_block (Closure.blockObject env)
    (fun b => Block.set_y (Block.y b + calculatedDeltaY)
                (Block.set_x (Block.x b + calculatedDeltaX) b))
    (update_closure c (Closure.set_lastTime currentTime) w).

(** Lines 259-370: the boundary policy of the closure, applied to its
    block; the result carries [stopAnimation]. A bounce writes the
    reflected speeds to the closure and, with the new angle, to the
    closure's own [animationData] (lines 353-357). *)
Definition boundary_logic (c : nat) (w : World) : Outcome (World * bool) :=
  let env := closures w c in
  let b := Closure.blockObject env in
  let vx := Closure.currentSpeedX env in
  let vy := Closure.currentSpeedY env in
  let sw := Closure.screenWidth env in
  let sh := Closure.screenHeight env in
  match Closure.boundary env with
  | front =>
      let '(blk, stopAnimation) := boundary_front (blocks w b) vx vy sw sh in
      Returned (update_block b (fun _ => blk) w, stopAnimation)
  | back =>
      let '(blk, stopAnimation) := boundary_back (blocks w b) vx vy sw sh in
      Returned (update_block b (fun _ => blk) w, stopAnimation)
  | bounce =>
      let r := boundary_bounce (blocks w b) vx vy sw sh in
      let w1 :=
        update_closure c
          (fun e => Closure.set_currentSpeedY (bounce_speedY r)
                      (Closure.set_currentSpeedX (bounce_speedX r) e))
          (update_block b (fun _ => bounce_block r) w) in
      let w2 :=
        if bounced r then
          update_record (Closure.animationData env)
            (fun a =>
               AnimationData.set_currentSpeedY (bounce_speedY r)
                 (AnimationData.set_currentSpeedX (bounce_speedX r)
                    (AnimationData.set_angle
                       (Num.atan2 (bounce_speedY r) (bounce_speedX r) * 180 / PI) a)))
            w1
        else w1 in
      Returned (w2, false)
  | pass =>
      match boundary_pass (blocks w b) sw sh with
      | Some blk => Returned (update_block b (fun _ => blk) w, false)
      | None => NotANumber w
      end
  end.

(** Lines 375-469: the body of the loop over [allBlocks], for the roster
    entry [o]. A [continue] returns the state as it is. *)
Definition collide (c o : nat) (w : World) : Outcome World :=
  let env := closures w c in
  let b := Closure.blockObject env in
  let component := Closure.owningComponent env in
  let blockToMove := blocks w b in
  let otherBlock := blocks w o in
  if String.eqb (Block.id blockToMove) (Block.id otherBlock) then Returned w
  else
    match Block.shape blockToMove, Block.shape otherBlock with
    | circle, circle =>
        let dx := Block.x otherBlock - Block.x blockToMove in
        let dy := Block.y otherBlock - Block.y blockToMove in
        let distance := sqrt (dx * dx + dy * dy) in
        let minDistance := Block.radiusX blockToMove + Block.radiusX otherBlock in
        if distance <? minDistance then
          match activeBlockAnimations w !! Block.id blockToMove,
                activeBlockAnimations w !! Block.id otherBlock with
          | Some blockToMoveAnimData, Some otherBlockAnimData =>
              match Closure.collision env with
              | c_stop =>
                  (* lines 393-396 *)
                  let w1 :=
                    update_record otherBlockAnimData
                      (AnimationData.set_currentSpeedY 0)
                      (update_record otherBlockAnimData
                         (AnimationData.set_currentSpeedX 0)
                         (update_record blockToMoveAnimData
                            (AnimationData.set_currentSpeedY 0)
                            (update_record blockToMoveAnimData
                               (AnimationData.set_currentSpeedX 0) w))) in
                  (* lines 399-401: dx / distance is 0 / 0 at distance 0 *)
                  if distance =? 0 then NotANumber w1
                  else
                    let overlap := minDistance - distance in
                    let separationX := overlap * (dx / distance) in
                    let separationY := overlap * (dy / distance) in
                    (* lines 403-406 *)
                    let w2 :=
                      update_block o
                        (fun k => Block.set_y (Block.y k + separationY * 0.5) k)
                        (update_block o
                           (fun k => Block.set_x (Block.x k + separationX * 0.5) k)
                           (update_block b
                              (fun k => Block.set_y (Block.y k - separationY * 0.5) k)
                              (update_block b
                                 (fun k => Block.set_x (Block.x k - separationX * 0.5) k)
                                 w1))) in
                    (* lines 409-410 *)
                    let w3 :=
                      updateBlockVisuals component (Block.id (blocks w2 o)) o
                        (updateBlockVisuals component (Block.id (blocks w2 b)) b w2) in
                    (* lines 413-414 *)
                    Returned
                      (stopMovingBlock (Block.id (blocks w3 o))
                         (stopMovingBlock (Block.id (blocks w3 b)) w3))
              | c_bounce =>
                  (* lines 417-420 *)
                  let v1x := AnimationData.currentSpeedX (records w blockToMoveAnimData) in
                  let v1y := AnimationData.currentSpeedY (records w blockToMoveAnimData) in
                  let v2x := AnimationData.currentSpeedX (records w otherBlockAnimData) in
                  let v2y := AnimationData.currentSpeedY (records w otherBlockAnimData) in
                  (* lines 422-423: 0 / 0 at distance 0 *)
                  if distance =? 0 then NotANumber w
                  else
                    let nx := dx / distance in
                    let ny := dy / distance in
                    let tx := - ny in
                    let ty := nx in
                    let dp_norm1 := v1x * nx + v1y * ny in
                    let dp_tan1 := v1x * tx + v1y * ty in
                    let dp_norm2 := v2x * nx + v2y * ny in
                    let dp_tan2 := v2x * tx + v2y * ty in
                    let new_dp_norm1 := dp_norm2 in
                    let new_dp_norm2 := dp_norm1 in
                    let new_v1x := new_dp_norm1 * nx + dp_tan1 * tx in
                    let new_v1y := new_dp_norm1 * ny + dp_tan1 * ty in
                    let new_v2x := new_dp_norm2 * nx + dp_tan2 * tx in
                    let new_v2y := new_dp_norm2 * ny + dp_tan2 * ty in
                    (* lines 445-452 *)
                    let w1 :=
                      update_record otherBlockAnimData
                        (AnimationData.set_angle
                           (Num.atan2 new_v2y new_v2x * 180 / PI))
                        (update_record blockToMoveAnimData
                           (AnimationData.set_angle
                              (Num.atan2 new_v1y new_v1x * 180 / PI))
                           (update_record otherBlockAnimData
                              (AnimationData.set_currentSpeedY new_v2y)
                              (update_record otherBlockAnimData
                                 (AnimationData.set_currentSpeedX new_v2x)
                                 (update_record blockToMoveAnimData
                                    (AnimationData.set_currentSpeedY new_v1y)
                                    (update_record blockToMoveAnimData
                                       (AnimationData.set_currentSpeedX new_v1x)
                                       w))))) in
                    (* lines 455-462 *)
                    let overlap := minDistance - distance in
                    let separationX := overlap * nx in
                    let separationY := overlap * ny in
                    let w2 :=
                      update_block o
                        (fun k => Block.set_y (Block.y k + separationY * 0.5) k)
                        (update_block o
                           (fun k => Block.set_x (Block.x k + separationX * 0.5) k)
                           (update_block b
                              (fun k => Block.set_y (Block.y k - separationY * 0.5) k)
                              (update_block b
                                 (fun k => Block.set_x (Block.x k - separationX * 0.5) k)
                                 w1))) in
                    (* lines 465-466 *)
                    Returned
                      (updateBlockVisuals component (Block.id (blocks w2 o)) o
                         (updateBlockVisuals component (Block.id (blocks w2 b)) b w2))
              | c_pass => Returned w
              end
          | _, _ => Returned w
          end
        else Returned w
    | _, _ => Returned w
    end.

(** Lines 374-470: [for (const otherBlock of allBlocks)]. *)
Fixpoint collision_loop (c : nat) (others : list nat) (w : World) : Outcome World :=
  match others with
  | [] => Returned w
  | o :: rest => w' <- collide c o w ;; collision_loop c rest w'
  end.

(** Lines 373-471. *)
Definition collision_logic (c : nat) (w : World) : Outcome World :=
  match Closure.collision (closures w c) with
  | c_pass => Returned w
  | _ => collision_loop c (Closure.allBlocks (closures w c)) w
  end.

(** Lines 473-484: the visual update, then the end of the animation or
    the next frame. Line 476 reads [animationFrameId] of
    [activeBlockAnimations.get(blockId)], a [TypeError] when the entry is
    gone. *)
Definition finish (c : nat) (stopAnimation : bool) (w : World) : Outcome World :=
  let env := closures w c in
  let blockId := Closure.blockId env in
  let w1 :=
    updateBlockVisuals (Closure.owningComponent env) blockId
      (Closure.blockObject env) w in
  if stopAnimation then
    match activeBlockAnimations w1 !! blockId with
    | Some r =>
        Returned
          (with_active (delete blockId)
             (cancelAnimationFrame (AnimationData.animationFrameId (records w1 r)) w1))
    | None => Thrown w1
    end
  else
    match activeBlockAnimations w1 !! blockId with
    | Some r =>
        let '(animationFrameId, w2) := requestAnimationFrame c w1 in
        Returned
          (update_record r (AnimationData.set_animationFrameId animationFrameId) w2)
    | None => Returned w1
    end.

Definition animate (c : nat) (currentTime : R) (w : World) : Outcome World :=
  p <- boundary_logic c (integrate c currentTime w) ;;
  w' <- collision_logic c (fst p) ;;
  finish c (snd p) w'.

(** The browser runs the pending frame [handle] at [currentTime]: the
    callback leaves the list of pending frames and is called. A cancelled
    handle runs nothing. *)
Definition run_frame (handle : nat) (currentTime : R) (w : World) : Outcome World :=
  match frames w !! handle with
  | Some c => animate c currentTime (with_frames (delete handle) w)
  | None => Returned w
  end.

(** ** [moveBlock] (source lines 214-505)

    [boundary] and [collision] are the strings of the call, the default
    ['pass'] included. *)
Definition moveBlock (blockObject angle pps owningComponent : Value)
    (boundary collision : string) (duration : R) (allBlocks : list nat)
    (w : World) : World :=
  match owningComponent with
  | VComponent component =>
      match blockObject with
      | VBlock b =>
          match angle, pps with
          | VNumber angle, VNumber pps =>
              let blockId := Block.id (blocks w b) in
              (* lines 236-238 *)
              let w1 :=
                match activeBlockAnimations w !! blockId with
                | Some r =>
                    cancelAnimationFrame
                      (AnimationData.animationFrameId (records w r)) w
                | None => w
                end in
              let currentSpeedX := cos (angle * PI / 180) * pps in
              let currentSpeedY := sin (angle * PI / 180) * pps in
              let lastTime := now w1 in
              let c := next_object w1 in
              let a := S (next_object w1) in
              let env :=
                Closure.make b component (boundary_of_string boundary)
                  (collision_of_string collision) allBlocks blockId
                  currentSpeedX currentSpeedY lastTime
                  (innerWidth w1) (innerHeight w1) a in
              (* lines 487-498 *)
              let '(animationFrameId, w2) := requestAnimationFrame c w1 in
              let animationData :=
                AnimationData.make animationFrameId blockId component b angle pps
                  lastTime currentSpeedX currentSpeedY in
              let w3 :=
                mkWorld (blocks w2) (<[a := animationData]> (records w2))
                  (<[c := env]> (closures w2))
                  (<[blockId := a]> (activeBlockAnimations w2))
                  (frames w2) (next_frame w2) (S (S (next_object w2)))
                  (timeouts w2) (console w2) (visuals w2) (now w2)
                  (innerWidth w2) (innerHeight w2) in
              (* lines 500-504 *)
              if duration >? 0 then setTimeout duration blockId w3 else w3
          | _, _ =>
              console_error
                "moveBlock: Invalid angle or pps (pixels per second)." w
          end
      | _ =>
          console_error
            "moveBlock: Invalid blockObject provided. Must be an instance of Block." w
      end
  | _ =>
      console_error
        "moveBlock: owningComponent is invalid or does not implement updateBlockVisuals(blockId, blockData)." w
  end.

(** A tick of the body [blockId]: the browser runs the frame its
    [animationData] holds, when there is one. *)
Definition tick_block (blockId : string) (currentTime : R) (w : World) : Outcome World :=
  match activeBlockAnimations w !! blockId with
  | Some r => run_frame (AnimationData.animationFrameId (records w r)) currentTime w
  | None => Returned w
  end.

(** Ticks of the body [blockId] at the times [ts], as long as they
    return. *)
Fixpoint run_ticks (blockId : string) (ts : list R) (w : World) : Outcome World :=
  match ts with
  | [] => Returned w
  | t :: rest => w' <- tick_block blockId t w ;; run_ticks blockId rest w'
  end.

(** Frames run one after the other, given by handle and time. *)
Fixpoint run_frames (events : list (nat * R)) (w : World) : Outcome World :=
  match events with
  | [] => Returned w
  | (handle, t) :: rest => w' <- run_frame handle t w ;; run_frames rest w'
  end.

(** ** The run-time checks of [moveBlock] (source lines 215-226) *)

(** [v instanceof Block]. *)
Definition instanceof_Block (v : Value) : bool :=
  match v with VBlock _ => true | _ => false end.

(** [typeof v === 'number']. *)
Definition typeof_number (v : Value) : bool :=
  match v with VNumber _ => true | _ => false end.

(** [v && typeof v.updateBlockVisuals === 'function']. *)
Definition has_updateBlockVisuals (v : Value) : bool :=
  match v with VComponent _ => true | _ => false end.


(** ** Vocabulary of the properties *)

(** The square of the speed a closure holds. *)
Definition speed_squared (e : Closure.t) : R :=
  Closure.currentSpeedX e * Closure.currentSpeedX e
  + Closure.currentSpeedY e * Closure.currentSpeedY e.

(** The times of successive frames, from [t0] on, never go back. *)
Fixpoint chronological (t0 : R) (ts : list R) : Prop :=
  match ts with
  | [] => True
  | t :: rest => t0 <= t /\ chronological t rest
  end.

(** The time of the last frame of [ts], or [t0] when there is none. *)
Fixpoint last_time (t0 : R) (ts : list R) : R :=
  match ts with
  | [] => t0
  | t :: rest => last_time t rest
  end.

(** No frame is pending in [w] that was not pending in [w0], but for
    the frames listed in [except]. *)
Definition no_new_frames (w0 w : World) (except : list nat) : Prop :=
  forall handle c,
    frames w !! handle = Some c -> In handle except \/ frames w0 !! handle = Some c.

(** The distance of the centres of two blocks, as line 381 computes it. *)
Definition distance (a b : Block.t) : R :=
  sqrt ((Block.x b - Block.x a) * (Block.x b - Block.x a)
        + (Block.y b - Block.y a) * (Block.y b - Block.y a)).

(** The roster entry [o] is another circle that overlaps the circle of
    the closure [c], and both bodies have an animation record, [r1] and
    [r2]: the condition under which lines 391-467 run. *)
Definition overlapping (c o : nat) (w : World) (r1 r2 : nat) : Prop :=
  let blockToMove := blocks w (Closure.blockObject (closures w c)) in
  let otherBlock := blocks w o in
  Block.id blockToMove <> Block.id otherBlock /\
  Block.shape blockToMove = circle /\
  Block.shape otherBlock = circle /\
  distance blockToMove otherBlock
    < Block.radiusX blockToMove + Block.radiusX otherBlock /\
  activeBlockAnimations w !! Block.id blockToMove = Some r1 /\
  activeBlockAnimations w !! Block.id otherBlock = Some r2 /\
  r1 <> r2.



(** A state transformation applied to what an outcome carries. *)
Definition outcome_map (f : World -> World) (o : Outcome World) : Outcome World :=
  match o with
  | Returned w => Returned (f w)
  | Thrown w => Thrown (f w)
  | NotANumber w => NotANumber (f w)
  end.

(** The state of the scenario of the policy 'front' while the body
    moves: a circle of radius 25 that left [x = 0] at the time [t0] with
    the velocity (100, 0) in a viewport of width 200, and whose last frame
    ran at [tl]. *)
Definition front_running (w0 : World) (b : nat) (blockId : string) (t0 tl : R)
    (w : World) : Prop :=
  exists a handle c,
    activeBlockAnimations w !! blockId = Some a /\
    AnimationData.animationFrameId (records w a) = handle /\
    frames w !! handle = Some c /\
    Closure.blockObject (closures w c) = b /\
    Closure.boundary (closures w c) = front /\
    Closure.collision (closures w c) = c_pass /\
    Closure.blockId (closures w c) = blockId /\
    Closure.currentSpeedX (closures w c) = 100 /\
    Closure.currentSpeedY (closures w c) = 0 /\
    Closure.lastTime (closures w c) = tl /\
    Closure.screenWidth (closures w c) = 200 /\
    Block.shape (blocks w b) = circle /\
    Block.size (blocks w b) = 25 /\
    Block.scale_x (blocks w b) = 0 /\
    Block.x (blocks w b) = (tl - t0) / 10 /\
    Block.y (blocks w b) = 0 /\
    Block.x (blocks w b) < 175 /\
    no_new_frames w0 w [handle].

(** The state of the scenario once the motion has ended. *)
Definition front_stopped (w0 : World) (b : nat) (blockId : string) (w : World) : Prop :=
  activeBlockAnimations w !! blockId = None /\
  Block.x (blocks w b) = 175 /\
  Block.y (blocks w b) = 0 /\
  no_new_frames w0 w [].

(** ** Scenes *)

(** A circle as the constructor builds it from an identifier, a centre
    and a size, with every other option left out. *)
Definition circle_at (id : string) (x y radius : R) : Block.t :=
  Block.make id circle x y radius 0 0 0 "black" 0 100.

Definition no_record : AnimationData.t :=
  AnimationData.make 0 EmptyString 0 0 0 0 0 0 0.

Definition no_closure : Closure.t :=
  Closure.make 0 0 pass c_pass [] EmptyString 0 0 0 0 0 0.

(** A page that has just been loaded, at the time 0: the blocks of
    [heap] in a window of the given extents, and no animation. *)
Definition page (heap : nat -> Block.t) (width height : R) : World :=
  mkWorld heap (fun _ => no_record) (fun _ => no_closure) ∅ ∅ 0 0 [] [] [] 0
    width height.

(** One circle of radius 25 at the origin. *)
Definition front_scene : World :=
  page (fun _ => circle_at "ball" 0 0 25) 200 100.

(** The scenario of the policy 'front', with the window made 400 wide
    after the motion has started. *)
Definition resized_scene : World :=
  resize_window 400 100
    (moveBlock (VBlock 0) (VNumber 0) (VNumber 100) (VComponent 0)
       "front" "pass" 0 [0%nat] front_scene).

(** Two circles of radius 10 in a window of 200 by 200: "a" close to
    the right edge and heading to it with the policies 'front' and
    'stop', "b" just outside the edge, moving too. *)
Definition edge_page : World :=
  page (fun ref => match ref with
                   | 0%nat => circle_at "a" 185 100 10
                   | _ => circle_at "b" 200 100 10
                   end) 200 200.

Definition edge_scene_a : World :=
  moveBlock (VBlock 0) (VNumber 0) (VNumber 100) (VComponent 0)
    "front" "stop" 0 [0%nat; 1%nat] edge_page.

Definition edge_scene : World :=
  moveBlock (VBlock 1) (VNumber 0) (VNumber 10) (VComponent 0)
    "pass" "pass" 0 [0%nat; 1%nat] edge_scene_a.

(** Two circles of radius 10 created without a position, so both at
    (0, 0), and started with no speed under the policies 'front' and
    'stop'. *)
Definition stack_page : World :=
  page (fun ref => match ref with
                   | 0%nat => circle_at "a" 0 0 10
                   | _ => circle_at "b" 0 0 10
                   end) 200 200.

Definition stack_scene_a : World :=
  moveBlock (VBlock 0) (VNumber 0) (VNumber 0) (VComponent 0)
    "front" "stop" 0 [0%nat; 1%nat] stack_page.

Definition stack_scene : World :=
  moveBlock (VBlock 1) (VNumber 0) (VNumber 0) (VComponent 0)
    "front" "stop" 0 [0%nat; 1%nat] stack_scene_a.

(** Two circles of radius 10 that overlap, in a window of 1000 by 1000,
    heading to each other at 50 pixels per second under the policies
    'pass' and 'bounce'. *)
Definition duel_page : World :=
  page (fun ref => match ref with
                   | 0%nat => circle_at "a" 100 100 10
                   | _ => circle_at "b" 115 100 10
                   end) 1000 1000.

Definition duel_scene_a : World :=
  moveBlock (VBlock 0) (VNumber 0) (VNumber 50) (VComponent 0)
    "pass" "bounce" 0 [0%nat; 1%nat] duel_page.

Definition duel_scene : World :=
  moveBlock (VBlock 1) (VNumber 180) (VNumber 50) (VComponent 0)
    "pass" "bounce" 0 [0%nat; 1%nat] duel_scene_a.





(** * Properties *)

(** ** Numbers *)

Lemma ltb_true a b : a < b -> Num.ltb a b = true.
Proof. intros H. unfold Num.ltb. destruct (Rlt_dec a b); [reflexivity | contradiction]. Qed.

Lemma ltb_false a b : b <= a -> Num.ltb a b = false.
Proof. intros H. unfold Num.ltb. destruct (Rlt_dec a b); [lra | reflexivity]. Qed.

Lemma leb_true a b : a <= b -> Num.leb a b = true.
Proof. intros H. unfold Num.leb. destruct (Rle_dec a b); [reflexivity | contradiction]. Qed.

Lemma leb_false a b : b < a -> Num.leb a b = false.
Proof. intros H. unfold Num.leb. destruct (Rle_dec a b); [lra | reflexivity]. Qed.

Lemma eqb_true a b : a = b -> Num.eqb a b = true.
Proof. intros H. unfold Num.eqb. destruct (Req_dec_T a b); [reflexivity | contradiction]. Qed.

Lemma eqb_false a b : a <> b -> Num.eqb a b = false.
Proof. intros H. unfold Num.eqb. destruct (Req_dec_T a b); [contradiction | reflexivity]. Qed.

Lemma ltb_spec a b : Num.ltb a b = true <-> a < b.
Proof. unfold Num.ltb. destruct (Rlt_dec a b); split; intros; (assumption || discriminate || reflexivity || contradiction). Qed.

Lemma leb_spec a b : Num.leb a b = true <-> a <= b.
Proof. unfold Num.leb. destruct (Rle_dec a b); split; intros; (assumption || discriminate || reflexivity || contradiction). Qed.

Lemma ltb_nspec a b : Num.ltb a b = false <-> b <= a.
Proof. unfold Num.ltb. destruct (Rlt_dec a b); split; intros; (discriminate || reflexivity || lra). Qed.

Lemma leb_nspec a b : Num.leb a b = false <-> b < a.
Proof. unfold Num.leb. destruct (Rle_dec a b); split; intros; (discriminate || reflexivity || lra). Qed.


(** Decide every numeric test of the goal whose outcome linear arithmetic
    settles. *)
Ltac rtest :=
  repeat match goal with
  | |- context [Num.ltb ?a ?b] =>
      first [ rewrite (ltb_true a b) by lra | rewrite (ltb_false a b) by lra ]
  | |- context [Num.leb ?a ?b] =>
      first [ rewrite (leb_true a b) by lra | rewrite (leb_false a b) by lra ]
  | |- context [Num.eqb ?a ?b] =>
      first [ rewrite (eqb_true a b) by lra | rewrite (eqb_false a b) by lra ]
  end.

(** Case analysis on a numeric test of the goal. *)
Ltac rcase :=
  match goal with
  | |- context [Num.ltb ?a ?b] =>
      let H := fresh "Hc" in
      destruct (Num.ltb a b) eqn:H;
      [apply ltb_spec in H | apply ltb_nspec in H]
  | |- context [Num.leb ?a ?b] =>
      let H := fresh "Hc" in
      destruct (Num.leb a b) eqn:H;
      [apply leb_spec in H | apply leb_nspec in H]
  end.

(** Case analysis on every numeric test, also on those that appear as the
    earlier ones are decided. *)
Ltac rcases := repeat (rcase; cbn in * ).

Section Remainder.

Lemma trunc_nonneg r : 0 <= r -> IZR (Num.trunc r) <= r < IZR (Num.trunc r) + 1.
Proof.
    intros H. unfold Num.trunc. destruct (Rle_dec 0 r); [| contradiction].
    destruct (base_Int_part r). lra.
Qed.

Lemma trunc_neg r : r < 0 -> r <= IZR (Num.trunc r) < r + 1.
Proof.
    intros H. unfold Num.trunc. destruct (Rle_dec 0 r); [lra |].
    destruct (base_Int_part (- r)). rewrite opp_IZR. lra.
Qed.

Lemma trunc_sign_nonneg r : 0 <= r -> (0 <= Num.trunc r)%Z.
Proof.
    intros H. destruct (trunc_nonneg r H) as [_ Hu].
    apply Z.lt_succ_r. apply lt_IZR. rewrite succ_IZR. lra.
Qed.

Lemma trunc_sign_neg r : r < 0 -> (Num.trunc r <= 0)%Z.
Proof.
    intros H. destruct (trunc_neg r H) as [_ Hu].
    apply Z.lt_succ_r. apply lt_IZR. rewrite succ_IZR. lra.
Qed.

Variable n : R.
Hypothesis n_pos : 0 < n.

  (** The remainder by a positive [n] differs from the dividend by a
      multiple of [n] and stays strictly inside [(-n, n)], on the side of
      the dividend. *)
Lemma rem_range_nonneg i : 0 <= i -> 0 <= Num.rem i n < n.
Proof.
    intros Hi. unfold Num.rem.
    assert (Hq : 0 <= i / n) by (apply Rle_mult_inv_pos; assumption).
    destruct (trunc_nonneg _ Hq) as [Hl Hu].
    assert (E : i = n * (i / n)) by (field; lra).
    split.
    - apply (Rmult_le_compat_l n) in Hl; lra.
    - apply (Rmult_lt_compat_l n) in Hu; lra.
Qed.

Lemma rem_range_neg i : i < 0 -> - n < Num.rem i n <= 0.
Proof.
    intros Hi. unfold Num.rem.
    assert (Hq : i / n < 0).
    { unfold Rdiv. assert (0 < / n) by (apply Rinv_0_lt_compat; assumption). nra. }
    destruct (trunc_neg _ Hq) as [Hl Hu].
    assert (E : i = n * (i / n)) by (field; lra).
    split.
    - apply (Rmult_lt_compat_l n) in Hu; lra.
    - apply (Rmult_le_compat_l n) in Hl; lra.
Qed.

Lemma rem_range i : - n < Num.rem i n < n.
Proof.
    destruct (Rle_dec 0 i) as [H | H].
    - pose proof (rem_range_nonneg i H). lra.
    - pose proof (rem_range_neg i ltac:(lra)). lra.
Qed.

Lemma positiveModulo_defined i :
    positiveModulo i n = Some (Num.rem (Num.rem i n + n) n).
Proof. unfold positiveModulo. rewrite eqb_false by lra. reflexivity. Qed.

  (** The result lies in [[0, n)]. *)
Lemma positiveModulo_range i r : positiveModulo i n = Some r -> 0 <= r < n.
Proof.
    rewrite positiveModulo_defined. intros [= <-].
    apply rem_range_nonneg. pose proof (rem_range i). lra.
Qed.

  (** The result is congruent to the argument modulo [n]. *)
Lemma positiveModulo_congr i r :
    positiveModulo i n = Some r -> exists k : Z, r = i + IZR k * n.
Proof.
    rewrite positiveModulo_defined. intros [= <-].
    exists (1 - Num.trunc (i / n) - Num.trunc ((Num.rem i n + n) / n))%Z.
    unfold Num.rem. rewrite !minus_IZR. lra.
Qed.

  (** Two reals of [[0, n)] that differ by a multiple of [n] are equal. *)
Lemma residue_unique a b (k : Z) :
    0 <= a < n -> 0 <= b < n -> a = b + IZR k * n -> a = b.
Proof.
    intros Ha Hb E.
    assert (Hk : (-1 < k < 1)%Z).
    { split; apply lt_IZR.
      - destruct (Rlt_dec (-1) (IZR k)); [assumption |]. nra.
      - destruct (Rlt_dec (IZR k) 1); [assumption |]. nra. }
    assert (k = 0%Z) by lia. subst k. lra.
Qed.

Lemma positiveModulo_unique i r (k : Z) :
    0 <= r < n -> r = i + IZR k * n -> positiveModulo i n = Some r.
Proof.
    intros Hr E.
    destruct (positiveModulo i n) as [r' |] eqn:Hp;
      [| rewrite positiveModulo_defined in Hp; discriminate].
    f_equal.
    destruct (positiveModulo_congr _ _ Hp) as [k' Hk'].
    apply (residue_unique r' r (k' - k)).
    - eapply positiveModulo_range; eassumption.
    - assumption.
    - rewrite minus_IZR. lra.
Qed.

  (** Inside [[0, n)] nothing changes. *)
Lemma positiveModulo_small i : 0 <= i < n -> positiveModulo i n = Some i.
Proof. intros H. apply (positiveModulo_unique i i 0); [assumption | lra]. Qed.

  (** Shifting the argument by a multiple of [n] does not change the
      result. *)
Lemma positiveModulo_shift i (k : Z) :
    positiveModulo (i + IZR k * n) n = positiveModulo i n.
Proof.
    destruct (positiveModulo i n) as [r |] eqn:Hp;
      [| rewrite positiveModulo_defined in Hp; discriminate].
    destruct (positiveModulo_congr _ _ Hp) as [k' Hk'].
    apply (positiveModulo_unique _ r (k' - k)).
    - eapply positiveModulo_range; eassumption.
    - rewrite minus_IZR. lra.
Qed.

End Remainder.

(** ** Blocks *)

(** Moving a block changes neither its extents nor its identity. *)
Lemma actualWidth_set_x v b : Block.actualWidth (Block.set_x v b) = Block.actualWidth b.
Proof. reflexivity. Qed.

Lemma actualWidth_set_y v b : Block.actualWidth (Block.set_y v b) = Block.actualWidth b.
Proof. reflexivity. Qed.

Lemma actualHeight_set_x v b : Block.actualHeight (Block.set_x v b) = Block.actualHeight b.
Proof. reflexivity. Qed.

Lemma actualHeight_set_y v b : Block.actualHeight (Block.set_y v b) = Block.actualHeight b.
Proof. reflexivity. Qed.

(** The extent of a circle is its diameter. *)
Lemma actualWidth_circle b :
  Block.shape b = circle -> Block.actualWidth b = 2 * Block.radiusX b.
Proof. unfold Block.actualWidth, Block.radiusX. intros ->. lra. Qed.

Lemma actualHeight_circle b :
  Block.shape b = circle -> Block.actualHeight b = 2 * Block.radiusY b.
Proof. unfold Block.actualHeight, Block.radiusY. intros ->. lra. Qed.

Lemma or_number_nonzero v d : d <> 0 -> Options.or_number v d <> 0.
Proof.
  intros Hd. unfold Options.or_number. destruct v as [r |]; [| assumption].
  unfold Num.eqb. destruct (Req_dec_T r 0); assumption.
Qed.

(** C10. A block constructed with [options.size] equal to 0 has the
    default size 50, whatever the other options are; [resize(0)] sets the
    size of any block to 0; and no options at all give a constructed block
    the size 0. *)
Theorem C10_size_zero_only_through_resize :
  (forall id shape x y scale_x scale_y borderWidth borderColor level opaque generated,
      Block.size
        (Block.constructor
           (Options.make id shape x y (Some 0) scale_x scale_y borderWidth
              borderColor level opaque) generated) = 50) /\
  (forall b, Block.size (Block.resize (VNumber 0) b) = 0) /\
  (forall options generated, Block.size (Block.constructor options generated) <> 0).
Proof.
  split; [| split].
  - intros. cbn. rewrite eqb_true; reflexivity.
  - intros b. unfold Block.resize. rewrite leb_true by lra. reflexivity.
  - intros options generated. cbn. apply or_number_nonzero. lra.
Qed.

(** ** Invalid arguments of [moveBlock] *)

(** C9. When the block is not a Block instance, or the angle or the speed
    is not a number, or the component has no [updateBlockVisuals]
    function, [moveBlock] writes one message to the console and leaves
    everything else as it was: no animation record, no frame, no timeout,
    no change to any block, record or closure. *)
Theorem C9_moveBlock_invalid_arguments
    blockObject angle pps owningComponent boundary collision duration allBlocks w :
  instanceof_Block blockObject = false \/ typeof_number angle = false \/
  typeof_number pps = false \/ has_updateBlockVisuals owningComponent = false ->
  let w' := moveBlock blockObject angle pps owningComponent boundary collision
              duration allBlocks w in
  (exists message, w' = console_error message w) /\
  activeBlockAnimations w' = activeBlockAnimations w /\
  frames w' = frames w /\
  next_frame w' = next_frame w /\
  timeouts w' = timeouts w /\
  blocks w' = blocks w /\
  records w' = records w /\
  closures w' = closures w /\
  visuals w' = visuals w.
Proof.
  intros H w'.
  assert (E : exists message, w' = console_error message w).
  { subst w'. unfold moveBlock.
    destruct owningComponent; try (eexists; reflexivity).
    destruct blockObject; try (eexists; reflexivity).
    destruct angle; try (eexists; reflexivity).
    destruct pps; try (eexists; reflexivity).
    cbn in H. intuition discriminate. }
  destruct E as [message E]. rewrite E.
  split; [exists message; reflexivity |]. repeat split.
Qed.

(** The angle given as the string "45". *)
Lemma C9_moveBlock_invalid_arguments_witness :
  activeBlockAnimations
    (moveBlock (VBlock 0) (VString "45") (VNumber 100) (VComponent 0)
       "front" "stop" 500 [0%nat] front_scene)
  = activeBlockAnimations front_scene.
Proof.
  apply (C9_moveBlock_invalid_arguments (VBlock 0) (VString "45") (VNumber 100)
           (VComponent 0) "front" "stop" 500 [0%nat] front_scene).
  right. left. reflexivity.
Defined.

(** ** Boundary policy 'pass' *)

(** In a wrapped position the left edge of the bounding box, shifted by
    the extent of the body, is the non-negative residue of the shifted
    left edge before. *)
Lemma boundary_pass_x b screenWidth screenHeight b' :
  0 < screenWidth + Block.actualWidth b ->
  boundary_pass b screenWidth screenHeight = Some b' ->
  positiveModulo (Block.minX (Block.getBounds b) + Block.actualWidth b)
    (screenWidth + Block.actualWidth b)
  = Some (Block.minX (Block.getBounds b') + Block.actualWidth b) /\
  Block.shape b' = Block.shape b /\ Block.actualWidth b' = Block.actualWidth b /\
  Block.actualHeight b' = Block.actualHeight b.
Proof.
  intros HW. unfold boundary_pass, Block.getBounds.
  destruct (Block.shape b) eqn:Hs.
  - destruct (positiveModulo (Block.x b + _) _) as [mx |] eqn:Hx; [| discriminate].
    destruct (positiveModulo (Block.y b + _) _) as [my |]; [| discriminate].
    intros [= <-]. cbn [Block.shape Block.set_x Block.set_y]. rewrite Hs.
    cbn [Block.minX Block.x Block.set_x Block.set_y].
    repeat split; try (unfold Block.actualWidth, Block.actualHeight; cbn; rewrite Hs; reflexivity).
    rewrite Hx. f_equal. lra.
  - rewrite <- (actualWidth_circle b Hs).
    destruct (positiveModulo (Block.x b + _) _) as [mx |] eqn:Hx; [| discriminate].
    destruct (positiveModulo (Block.y b + _) _) as [my |]; [| discriminate].
    intros [= <-]. cbn [Block.shape Block.set_x Block.set_y]. rewrite Hs.
    cbn [Block.minX Block.x Block.set_x Block.set_y].
    assert (Er : Block.radiusX (Block.set_y (my - Block.radiusY b)
                   (Block.set_x (mx - Block.radiusX b) b)) = Block.radiusX b)
      by reflexivity.
    rewrite Er.
    repeat split; try (unfold Block.actualWidth, Block.actualHeight; cbn; rewrite Hs; reflexivity).
    pose proof (actualWidth_circle b Hs) as Ea.
    replace (Block.x b - Block.radiusX b + Block.actualWidth b)
      with (Block.x b + Block.radiusX b) by lra.
    rewrite Hx. f_equal. lra.
Qed.

Lemma boundary_pass_y b screenWidth screenHeight b' :
  0 < screenHeight + Block.actualHeight b ->
  boundary_pass b screenWidth screenHeight = Some b' ->
  positiveModulo (Block.minY (Block.getBounds b) + Block.actualHeight b)
    (screenHeight + Block.actualHeight b)
  = Some (Block.minY (Block.getBounds b') + Block.actualHeight b).
Proof.
  intros HW. unfold boundary_pass, Block.getBounds.
  destruct (Block.shape b) eqn:Hs.
  - destruct (positiveModulo (Block.x b + _) _) as [mx |]; [| discriminate].
    destruct (positiveModulo (Block.y b + _) _) as [my |] eqn:Hy; [| discriminate].
    intros [= <-]. cbn [Block.shape Block.set_x Block.set_y]. rewrite Hs.
    cbn [Block.minY Block.y Block.set_x Block.set_y].
    rewrite Hy. f_equal. lra.
  - rewrite <- (actualHeight_circle b Hs).
    destruct (positiveModulo (Block.x b + _) _) as [mx |]; [| discriminate].
    destruct (positiveModulo (Block.y b + _) _) as [my |] eqn:Hy; [| discriminate].
    intros [= <-]. cbn [Block.shape Block.set_x Block.set_y]. rewrite Hs.
    cbn [Block.minY Block.y Block.set_x Block.set_y].
    assert (Er : Block.radiusY (Block.set_y (my - Block.radiusY b)
                   (Block.set_x (mx - Block.radiusX b) b)) = Block.radiusY b)
      by reflexivity.
    rewrite Er.
    pose proof (actualHeight_circle b Hs) as Ea.
    replace (Block.y b - Block.radiusY b + Block.actualHeight b)
      with (Block.y b + Block.radiusY b) by lra.
    rewrite Hy. f_equal. lra.
Qed.

(** With positive world extents the wrap is defined. *)
Lemma boundary_pass_defined b screenWidth screenHeight :
  0 < screenWidth + Block.actualWidth b ->
  0 < screenHeight + Block.actualHeight b ->
  exists b', boundary_pass b screenWidth screenHeight = Some b'.
Proof.
  intros HW HH. unfold boundary_pass.
  destruct (Block.shape b) eqn:Hs.
  - rewrite !positiveModulo_defined by assumption. eexists; reflexivity.
  - rewrite <- (actualWidth_circle b Hs), <- (actualHeight_circle b Hs).
    rewrite !positiveModulo_defined by assumption. eexists; reflexivity.
Qed.

(** A wrapped block wraps to itself. *)
Lemma boundary_pass_idempotent b screenWidth screenHeight b' :
  0 < screenWidth + Block.actualWidth b ->
  0 < screenHeight + Block.actualHeight b ->
  boundary_pass b screenWidth screenHeight = Some b' ->
  boundary_pass b' screenWidth screenHeight = Some b'.
Proof.
  intros HW HH. unfold boundary_pass.
  destruct (Block.shape b) eqn:Hs.
  - destruct (positiveModulo (Block.x b + _) _) as [mx |] eqn:Hx; [| discriminate].
    destruct (positiveModulo (Block.y b + _) _) as [my |] eqn:Hy; [| discriminate].
    intros [= <-]. cbn [Block.shape Block.set_x Block.set_y]. rewrite Hs.
    rewrite !actualWidth_set_y, !actualWidth_set_x, !actualHeight_set_y,
      !actualHeight_set_x.
    cbn [Block.x Block.y Block.set_x Block.set_y].
    pose proof (positiveModulo_range _ HW _ _ Hx).
    pose proof (positiveModulo_range _ HH _ _ Hy).
    replace (mx - Block.actualWidth b + Block.actualWidth b) with mx by lra.
    replace (my - Block.actualHeight b + Block.actualHeight b) with my by lra.
    rewrite !positiveModulo_small by assumption. reflexivity.
  - pose proof (actualWidth_circle b Hs) as Ew.
    pose proof (actualHeight_circle b Hs) as Eh.
    rewrite Ew in HW. rewrite Eh in HH.
    destruct (positiveModulo (Block.x b + _) _) as [mx |] eqn:Hx; [| discriminate].
    destruct (positiveModulo (Block.y b + _) _) as [my |] eqn:Hy; [| discriminate].
    intros [= <-]. cbn [Block.shape Block.set_x Block.set_y]. rewrite Hs.
    change (Block.radiusX (Block.set_y (my - Block.radiusY b)
              (Block.set_x (mx - Block.radiusX b) b))) with (Block.radiusX b).
    change (Block.radiusY (Block.set_y (my - Block.radiusY b)
              (Block.set_x (mx - Block.radiusX b) b))) with (Block.radiusY b).
    cbn [Block.x Block.y Block.set_x Block.set_y].
    pose proof (positiveModulo_range _ HW _ _ Hx).
    pose proof (positiveModulo_range _ HH _ _ Hy).
    replace (mx - Block.radiusX b + Block.radiusX b) with mx by lra.
    replace (my - Block.radiusY b + Block.radiusY b) with my by lra.
    rewrite !positiveModulo_small by assumption. reflexivity.
Qed.

(** A block moved by whole world extents wraps to the same place. *)
Lemma boundary_pass_shift b screenWidth screenHeight (kx ky : Z) :
  0 < screenWidth + Block.actualWidth b ->
  0 < screenHeight + Block.actualHeight b ->
  boundary_pass
    (Block.moveBy (IZR kx * (screenWidth + Block.actualWidth b))
       (IZR ky * (screenHeight + Block.actualHeight b)) b)
    screenWidth screenHeight
  = boundary_pass b screenWidth screenHeight.
Proof.
  intros HW HH. unfold boundary_pass, Block.moveBy.
  cbn [Block.shape Block.set_x Block.set_y].
  destruct (Block.shape b) eqn:Hs.
  - rewrite !actualWidth_set_y, !actualWidth_set_x, !actualHeight_set_y,
      !actualHeight_set_x.
    cbn [Block.x Block.y Block.set_x Block.set_y].
    replace (Block.x b + IZR kx * (screenWidth + Block.actualWidth b)
             + Block.actualWidth b)
      with (Block.x b + Block.actualWidth b
            + IZR kx * (screenWidth + Block.actualWidth b)) by lra.
    replace (Block.y b + IZR ky * (screenHeight + Block.actualHeight b)
             + Block.actualHeight b)
      with (Block.y b + Block.actualHeight b
            + IZR ky * (screenHeight + Block.actualHeight b)) by lra.
    rewrite !positiveModulo_shift by assumption. reflexivity.
  - pose proof (actualWidth_circle b Hs) as Ew.
    pose proof (actualHeight_circle b Hs) as Eh.
    rewrite Ew in *. rewrite Eh in *.
    match goal with
    | |- context [Block.radiusX (Block.set_y ?v (Block.set_x ?u b))] =>
        change (Block.radiusX (Block.set_y v (Block.set_x u b))) with (Block.radiusX b);
        change (Block.radiusY (Block.set_y v (Block.set_x u b))) with (Block.radiusY b)
    end.
    cbn [Block.x Block.y Block.set_x Block.set_y].
    replace (Block.x b + IZR kx * (screenWidth + 2 * Block.radiusX b)
             + Block.radiusX b)
      with (Block.x b + Block.radiusX b
            + IZR kx * (screenWidth + 2 * Block.radiusX b)) by lra.
    replace (Block.y b + IZR ky * (screenHeight + 2 * Block.radiusY b)
             + Block.radiusY b)
      with (Block.y b + Block.radiusY b
            + IZR ky * (screenHeight + 2 * Block.radiusY b)) by lra.
    rewrite !positiveModulo_shift by assumption. reflexivity.
Qed.

(** The remainder operator alone keeps the sign of a negative dividend. *)
Lemma rem_negative_dividend i n : 0 < n -> i < 0 -> Num.rem i n <= 0.
Proof. intros Hn Hi. apply (rem_range_neg n Hn i Hi). Qed.

(** C8. Under the policy 'pass', with positive world extents
    [screenWidth + actualWidth] and [screenHeight + actualHeight], the
    wrap is defined and on each axis the near edge of the bounding box,
    shifted by the extent of the body, becomes its [positiveModulo] by the
    world extent: a value in [[0, world)] that differs from the shifted
    edge by a whole number of world extents, also for negative positions,
    where the remainder operator alone would give a value that is not
    positive. The wrap is idempotent, and a block moved by whole world
    extents wraps to the same place. *)
Theorem C8_pass_wraps_by_true_modulo b screenWidth screenHeight :
  0 < screenWidth + Block.actualWidth b ->
  0 < screenHeight + Block.actualHeight b ->
  exists b',
    boundary_pass b screenWidth screenHeight = Some b' /\
    positiveModulo (Block.minX (Block.getBounds b) + Block.actualWidth b)
      (screenWidth + Block.actualWidth b)
    = Some (Block.minX (Block.getBounds b') + Block.actualWidth b) /\
    positiveModulo (Block.minY (Block.getBounds b) + Block.actualHeight b)
      (screenHeight + Block.actualHeight b)
    = Some (Block.minY (Block.getBounds b') + Block.actualHeight b) /\
    0 <= Block.minX (Block.getBounds b') + Block.actualWidth b
      < screenWidth + Block.actualWidth b /\
    0 <= Block.minY (Block.getBounds b') + Block.actualHeight b
      < screenHeight + Block.actualHeight b /\
    (exists k : Z,
        Block.minX (Block.getBounds b')
        = Block.minX (Block.getBounds b) + IZR k * (screenWidth + Block.actualWidth b)) /\
    (exists k : Z,
        Block.minY (Block.getBounds b')
        = Block.minY (Block.getBounds b) + IZR k * (screenHeight + Block.actualHeight b)) /\
    (Block.minX (Block.getBounds b) + Block.actualWidth b < 0 ->
     Num.rem (Block.minX (Block.getBounds b) + Block.actualWidth b)
       (screenWidth + Block.actualWidth b) <= 0) /\
    boundary_pass b' screenWidth screenHeight = Some b' /\
    (forall kx ky : Z,
        boundary_pass
          (Block.moveBy (IZR kx * (screenWidth + Block.actualWidth b))
             (IZR ky * (screenHeight + Block.actualHeight b)) b)
          screenWidth screenHeight = Some b').
Proof.
  intros HW HH.
  destruct (boundary_pass_defined b screenWidth screenHeight HW HH) as [b' Hb].
  exists b'.
  destruct (boundary_pass_x _ _ _ _ HW Hb) as (Hx & _).
  pose proof (boundary_pass_y _ _ _ _ HH Hb) as Hy.
  split; [assumption |]. split; [assumption |]. split; [assumption |].
  split; [apply (positiveModulo_range _ HW _ _ Hx) |].
  split; [apply (positiveModulo_range _ HH _ _ Hy) |].
  split.
  { destruct (positiveModulo_congr _ HW _ _ Hx) as [k Hk]. exists k. lra. }
  split.
  { destruct (positiveModulo_congr _ HH _ _ Hy) as [k Hk]. exists k. lra. }
  split; [apply rem_negative_dividend; assumption |].
  split; [eapply boundary_pass_idempotent; eassumption |].
  intros kx ky. rewrite boundary_pass_shift; assumption.
Qed.

(** A square of side 50 that has left the 200 wide viewport on the
    left. *)
Lemma C8_pass_wraps_by_true_modulo_witness :
  exists b',
    boundary_pass (Block.make "box" square (-70) 30 50 0 0 0 "black" 0 100) 200 100
    = Some b' /\
    boundary_pass b' 200 100 = Some b'.
Proof.
  destruct (C8_pass_wraps_by_true_modulo
              (Block.make "box" square (-70) 30 50 0 0 0 "black" 0 100) 200 100)
    as (b' & Hb & _ & _ & _ & _ & _ & _ & _ & Hidem & _).
  - unfold Block.actualWidth. cbn. lra.
  - unfold Block.actualHeight. cbn. lra.
  - exists b'. split; assumption.
Defined.

(** ** Boundary policy 'bounce' *)

(** One application of the bounce logic: on each axis either nothing
    changes, or the speed component changes sign and the block lies with
    that side on the edge it touched. *)
Lemma boundary_bounce_axes b vx vy screenWidth screenHeight :
  let r := boundary_bounce b vx vy screenWidth screenHeight in
  (bounce_speedX r = vx /\ Block.x (bounce_block r) = Block.x b \/
   bounce_speedX r = - vx /\
   (Block.minX (Block.getBounds (bounce_block r)) = 0 \/
    Block.maxX (Block.getBounds (bounce_block r)) = screenWidth)) /\
  (bounce_speedY r = vy /\ Block.y (bounce_block r) = Block.y b \/
   bounce_speedY r = - vy /\
   (Block.minY (Block.getBounds (bounce_block r)) = 0 \/
    Block.maxY (Block.getBounds (bounce_block r)) = screenHeight)) /\
  (bounced r = false ->
   bounce_speedX r = vx /\ bounce_speedY r = vy /\ bounce_block r = b).
Proof.
  unfold boundary_bounce, Block.getBounds, Block.actualWidth, Block.actualHeight,
    Block.radiusX, Block.radiusY.
  destruct b as [i s bx by_ sz sx sy bw bc lv op].
  destruct s; cbn; rcases;
    (split; [| split]);
    try (intros; discriminate);
    try (intros _; repeat split; reflexivity);
    first [ left; split; [reflexivity | reflexivity]
          | right; split; [lra |]; first [left; lra | right; lra] ].
Qed.

(** The speed of a bounce result has the magnitude it had. *)
Lemma boundary_bounce_speed b vx vy screenWidth screenHeight :
  let r := boundary_bounce b vx vy screenWidth screenHeight in
  sqrt (bounce_speedX r * bounce_speedX r + bounce_speedY r * bounce_speedY r)
  = sqrt (vx * vx + vy * vy).
Proof.
  intros r.
  destruct (boundary_bounce_axes b vx vy screenWidth screenHeight) as (Hx & Hy & _).
  fold r in Hx, Hy. f_equal.
  destruct Hx as [[-> _] | [-> _]]; destruct Hy as [[-> _] | [-> _]]; lra.
Qed.

(** ** Boundary policy 'front' *)

(** One application of the front logic. An axis is in contact when the
    speed on it points to an edge that the leading side has reached. The
    animation stops exactly when an axis is in contact; the leading side
    of an axis in contact is put on the edge; the position on an axis
    that is not in contact is kept. *)
Lemma boundary_front_axes b vx vy screenWidth screenHeight :
  let r := boundary_front b vx vy screenWidth screenHeight in
  let contactX :=
    0 < vx /\ screenWidth <= Block.maxX (Block.getBounds b) \/
    vx < 0 /\ Block.minX (Block.getBounds b) <= 0 in
  let contactY :=
    0 < vy /\ screenHeight <= Block.maxY (Block.getBounds b) \/
    vy < 0 /\ Block.minY (Block.getBounds b) <= 0 in
  (snd r = true <-> contactX \/ contactY) /\
  (0 < vx -> screenWidth <= Block.maxX (Block.getBounds b) ->
   Block.maxX (Block.getBounds (fst r)) = screenWidth) /\
  (vx < 0 -> Block.minX (Block.getBounds b) <= 0 ->
   Block.minX (Block.getBounds (fst r)) = 0) /\
  (0 < vy -> screenHeight <= Block.maxY (Block.getBounds b) ->
   Block.maxY (Block.getBounds (fst r)) = screenHeight) /\
  (vy < 0 -> Block.minY (Block.getBounds b) <= 0 ->
   Block.minY (Block.getBounds (fst r)) = 0) /\
  (~ contactX -> Block.x (fst r) = Block.x b) /\
  (~ contactY -> Block.y (fst r) = Block.y b).
Proof.
  unfold boundary_front, Block.getBounds, Block.actualWidth, Block.actualHeight,
    Block.radiusX, Block.radiusY.
  destruct b as [i s bx by_ sz sx sy bw bc lv op].
  destruct s; cbn; rcases;
    repeat match goal with |- _ /\ _ => split end;
    try (intros; lra);
    try (intros; reflexivity);
    try (intros Hn; exfalso; apply Hn; lra);
    try (split; [intros; lra | intros; reflexivity]);
    try (split; [intros; discriminate | intros [[? ?] | [? ?]] ; lra]);
    try (split; [intros; discriminate | intros [[[? ?] | [? ?]] | [[? ?] | [? ?]]]; lra]).
Qed.

(** ** What a tick leaves alone *)

(** The resolution of collisions writes to blocks, records and the table
    of animations, never to the variables of a closure. *)
Lemma stopMovingBlock_closures blockId w :
  closures (stopMovingBlock blockId w) = closures w.
Proof. unfold stopMovingBlock. destruct (_ !! _); reflexivity. Qed.

Lemma collide_closures c o w : closures (world_of (collide c o w)) = closures w.
Proof.
  unfold collide.
  repeat match goal with
  | |- context [if ?t then _ else _] => destruct t
  | |- context [match ?t with _ => _ end] => destruct t
  end; cbn [world_of]; rewrite ?stopMovingBlock_closures; reflexivity.
Qed.

Lemma collision_loop_closures c others w :
  closures (world_of (collision_loop c others w)) = closures w.
Proof.
  revert w. induction others as [| o rest IH]; intros w; [reflexivity |].
  cbn [collision_loop]. pose proof (collide_closures c o w) as Hc.
  destruct (collide c o w) as [w' | w' | w']; cbn [bind world_of] in *;
    [rewrite IH |..]; assumption.
Qed.

Lemma collision_logic_closures c w :
  closures (world_of (collision_logic c w)) = closures w.
Proof.
  unfold collision_logic.
  destruct (Closure.collision _); try apply collision_loop_closures; reflexivity.
Qed.

Lemma finish_closures c stopAnimation w :
  closures (world_of (finish c stopAnimation w)) = closures w.
Proof.
  unfold finish.
  destruct stopAnimation; destruct (_ !! _); reflexivity.
Qed.

Lemma integrate_speed c t w c' :
  Closure.currentSpeedX (closures (integrate c t w) c') = Closure.currentSpeedX (closures w c') /\
  Closure.currentSpeedY (closures (integrate c t w) c') = Closure.currentSpeedY (closures w c').
Proof.
  unfold integrate. cbn.
  destruct (decide (c = c')) as [-> | Hne].
  - rewrite fn_lookup_alter. split; reflexivity.
  - rewrite fn_lookup_alter_ne by assumption. split; reflexivity.
Qed.

(** The boundary logic keeps each speed component up to its sign. *)
Lemma boundary_logic_speed c w c' :
  let e := closures w c' in
  let e' := closures
              match boundary_logic c w with
              | Returned p => fst p
              | Thrown w' => w'
              | NotANumber w' => w'
              end c' in
  (Closure.currentSpeedX e' = Closure.currentSpeedX e \/
   Closure.currentSpeedX e' = - Closure.currentSpeedX e) /\
  (Closure.currentSpeedY e' = Closure.currentSpeedY e \/
   Closure.currentSpeedY e' = - Closure.currentSpeedY e).
Proof.
  unfold boundary_logic.
  destruct (Closure.boundary (closures w c)).
  - destruct (boundary_front _ _ _ _ _). cbn. split; left; reflexivity.
  - destruct (boundary_back _ _ _ _ _). cbn. split; left; reflexivity.
  - destruct (boundary_pass _ _ _); cbn; split; left; reflexivity.
  - pose proof (boundary_bounce_axes
                  (blocks w (Closure.blockObject (closures w c)))
                  (Closure.currentSpeedX (closures w c))
                  (Closure.currentSpeedY (closures w c))
                  (Closure.screenWidth (closures w c))
                  (Closure.screenHeight (closures w c))) as (Hx & Hy & _).
    cbn zeta in Hx, Hy.
    set (r := boundary_bounce _ _ _ _ _) in *.
    assert (E : closures (if bounced r
                          then update_record (Closure.animationData (closures w c))
                                 (fun a =>
                                    AnimationData.set_currentSpeedY (bounce_speedY r)
                                      (AnimationData.set_currentSpeedX (bounce_speedX r)
                                         (AnimationData.set_angle
                                            (Num.atan2 (bounce_speedY r) (bounce_speedX r) * 180 / PI) a)))
                                 (update_closure c
                                    (fun e => Closure.set_currentSpeedY (bounce_speedY r)
                                                (Closure.set_currentSpeedX (bounce_speedX r) e))
                                    (update_block (Closure.blockObject (closures w c))
                                       (fun _ => bounce_block r) w))
                          else update_closure c
                                 (fun e => Closure.set_currentSpeedY (bounce_speedY r)
                                             (Closure.set_currentSpeedX (bounce_speedX r) e))
                                 (update_block (Closure.blockObject (closures w c))
                                    (fun _ => bounce_block r) w))
                = alter (fun e => Closure.set_currentSpeedY (bounce_speedY r)
                                    (Closure.set_currentSpeedX (bounce_speedX r) e))
                    c (closures w))
      by (destruct (bounced r); reflexivity).
    cbn [fst]. rewrite E.
    destruct (decide (c = c')) as [-> | Hne].
    + rewrite fn_lookup_alter. cbn.
      split; [destruct Hx as [[-> _] | [-> _]] | destruct Hy as [[-> _] | [-> _]]];
        auto.
    + rewrite fn_lookup_alter_ne by assumption. split; left; reflexivity.
Qed.

(** A tick keeps the magnitude of the speed of every closure. *)
Lemma animate_speed c t w c' :
  speed_squared (closures (world_of (animate c t w)) c')
  = speed_squared (closures w c').
Proof.
  unfold animate.
  pose proof (boundary_logic_speed c (integrate c t w) c') as Hb. cbn zeta in Hb.
  destruct (integrate_speed c t w c') as [Ex Ey]. rewrite Ex, Ey in Hb.
  assert (Hs : forall w',
             closures w' = closures match boundary_logic c (integrate c t w) with
                                    | Returned p => fst p
                                    | Thrown w' => w'
                                    | NotANumber w' => w'
                                    end ->
             speed_squared (closures w' c') = speed_squared (closures w c')).
  { intros w' ->. unfold speed_squared.
    destruct Hb as [[-> | ->] [-> | ->]]; lra. }
  destruct (boundary_logic c (integrate c t w)) as [[w1 stop] | w1 | w1];
    cbn [bind fst snd world_of] in *; try (apply Hs; reflexivity).
  pose proof (collision_logic_closures c w1) as Hc.
  destruct (collision_logic c w1) as [w2 | w2 | w2]; cbn [bind world_of] in *;
    try (apply Hs; assumption).
  apply Hs. rewrite finish_closures. assumption.
Qed.

Lemma run_frame_speed handle t w c' :
  speed_squared (closures (world_of (run_frame handle t w)) c')
  = speed_squared (closures w c').
Proof.
  unfold run_frame. destruct (frames w !! handle) as [c |]; [| reflexivity].
  rewrite animate_speed. reflexivity.
Qed.

Lemma run_frames_speed events w c' :
  speed_squared (closures (world_of (run_frames events w)) c')
  = speed_squared (closures w c').
Proof.
  revert w. induction events as [| [handle t] rest IH]; intros w; [reflexivity |].
  cbn [run_frames]. pose proof (run_frame_speed handle t w c') as Hf.
  destruct (run_frame handle t w) as [w' | w' | w']; cbn [bind world_of] in *;
    [rewrite IH |..]; assumption.
Qed.

(** C7. Under the policy 'bounce' a reflection changes, on each axis,
    either nothing or the sign of the speed component, and then leaves
    the block with that side on the edge it touched; the magnitude of the
    speed after the reflection is the magnitude before. Through any
    number of frames, of any closures at any times, the magnitude of the
    speed every closure holds stays what it was. *)
Theorem C7_bounce_preserves_speed :
  (forall b vx vy screenWidth screenHeight,
      let r := boundary_bounce b vx vy screenWidth screenHeight in
      sqrt (bounce_speedX r * bounce_speedX r + bounce_speedY r * bounce_speedY r)
      = sqrt (vx * vx + vy * vy) /\
      (bounce_speedX r = vx /\ Block.x (bounce_block r) = Block.x b \/
       bounce_speedX r = - vx /\
       (Block.minX (Block.getBounds (bounce_block r)) = 0 \/
        Block.maxX (Block.getBounds (bounce_block r)) = screenWidth)) /\
      (bounce_speedY r = vy /\ Block.y (bounce_block r) = Block.y b \/
       bounce_speedY r = - vy /\
       (Block.minY (Block.getBounds (bounce_block r)) = 0 \/
        Block.maxY (Block.getBounds (bounce_block r)) = screenHeight))) /\
  (forall events w c,
      sqrt (speed_squared (closures (world_of (run_frames events w)) c))
      = sqrt (speed_squared (closures w c))).
Proof.
  split.
  - intros b vx vy screenWidth screenHeight r.
    split; [apply boundary_bounce_speed |].
    destruct (boundary_bounce_axes b vx vy screenWidth screenHeight) as (Hx & Hy & _).
    split; assumption.
  - intros events w c. rewrite run_frames_speed. reflexivity.
Qed.

(** ** The scenario of the policy 'front' *)

Lemma front_tick w0 b blockId t0 tl t w :
  front_running w0 b blockId t0 tl w -> tl <= t ->
  exists w', tick_block blockId t w = Returned w' /\
    ((t - t0) / 10 < 175 /\ front_running w0 b blockId t0 t w' \/
     175 <= (t - t0) / 10 /\ front_stopped w0 b blockId w').
Proof.
  intros (a & handle & c & Ha & Hh & Hf & Hb & Hbd & Hcl & Hid & Hvx & Hvy & Hlt
          & Hsw & Hshape & Hsize & Hscale & Hx & Hy & Hlt175 & Hnew) Ht.
  unfold tick_block. rewrite Ha, Hh. unfold run_frame. rewrite Hf.
  unfold animate, integrate, boundary_logic, collision_logic, finish.
  destruct (Rle_dec 175 ((t - t0) / 10)) as [Hstop | Hgo].
  - eexists. split.
    + cbn. rewrite !fn_lookup_alter. cbn. rewrite Hb, Hbd, Hvx, Hvy, Hlt, Hsw.
      rewrite ?fn_lookup_alter.
      unfold boundary_front. cbn. rewrite Hshape.
      unfold Block.radiusX, Block.radiusY. cbn. rewrite Hshape, Hsize, Hscale, Hx, Hy.
      rtest. cbn. rewrite ?fn_lookup_alter. cbn. rewrite Hcl. cbn.
      rewrite ?fn_lookup_alter. cbn. rewrite Hid, Ha. reflexivity.
    + right. split; [assumption |]. unfold front_stopped. cbn.
      rewrite ?fn_lookup_alter. cbn.
      split; [apply lookup_delete_eq |]. split; [lra |]. split; [lra |].
      intros h' c'. cbn. rewrite Hh.
      intros Hl. apply lookup_delete_Some in Hl as [_ Hl].
      apply lookup_delete_Some in Hl as [Hne Hl].
      destruct (Hnew h' c' Hl) as [[-> | []] | Hold]; [contradiction | right; assumption].
  - apply Rnot_le_lt in Hgo. eexists. split.
    + cbn. rewrite !fn_lookup_alter. cbn. rewrite Hb, Hbd, Hvx, Hvy, Hlt, Hsw.
      rewrite ?fn_lookup_alter.
      unfold boundary_front. cbn. rewrite Hshape.
      unfold Block.radiusX, Block.radiusY. cbn. rewrite Hshape, Hsize, Hscale, Hx, Hy.
      rtest. cbn. rewrite ?fn_lookup_alter. cbn. rewrite Hcl. cbn.
      rewrite ?fn_lookup_alter. cbn. rewrite Hid, Ha. reflexivity.
    + left. split; [assumption |]. unfold front_running. cbn.
      exists a, (next_frame w), c.
      rewrite ?fn_lookup_alter. cbn.
      rewrite Hb, Hbd, Hcl, Hid, Hvx, Hvy, Hsw, Hshape, Hsize, Hscale.
      rewrite lookup_insert_eq.
      repeat match goal with |- _ /\ _ => split end;
        try reflexivity; try assumption; try lra.
      intros h' c'. cbn. intros Hl.
      apply lookup_insert_Some in Hl as [[<- <-] | [Hne Hl]]; [left; left; reflexivity |].
      apply lookup_delete_Some in Hl as [Hne' Hl].
      destruct (Hnew h' c' Hl) as [[-> | []] | Hold]; [contradiction | right; assumption].
Qed.

Lemma front_stopped_tick w0 b blockId t w :
  front_stopped w0 b blockId w -> tick_block blockId t w = Returned w.
Proof. intros (Ha & _). unfold tick_block. rewrite Ha. reflexivity. Qed.

Lemma front_stopped_run w0 b blockId ts w :
  front_stopped w0 b blockId w -> run_ticks blockId ts w = Returned w.
Proof.
  intros Hs. induction ts as [| t rest IH]; [reflexivity |].
  cbn [run_ticks]. rewrite (front_stopped_tick w0 b blockId t w Hs). exact IH.
Qed.

Lemma chronological_last_time ts : forall t, chronological t ts -> t <= last_time t ts.
Proof.
  induction ts as [| u rest IH]; intros t Hch; cbn [last_time].
  - lra.
  - destruct Hch as [Hu Hch]. specialize (IH u Hch). lra.
Qed.

Lemma front_run w0 b blockId t0 ts : forall tl w,
  front_running w0 b blockId t0 tl w -> chronological tl ts ->
  exists w', run_ticks blockId ts w = Returned w' /\
    ((last_time tl ts - t0) / 10 < 175 /\
     front_running w0 b blockId t0 (last_time tl ts) w' \/
     175 <= (last_time tl ts - t0) / 10 /\ front_stopped w0 b blockId w').
Proof.
  induction ts as [| t rest IH]; intros tl w Hrun Hch.
  - exists w. split; [reflexivity |]. left. split; [| assumption].
    destruct Hrun as (a & handle & c & H). cbn [last_time]. lra.
  - destruct Hch as [Ht Hch]. cbn [run_ticks last_time].
    destruct (front_tick w0 b blockId t0 tl t w Hrun Ht) as (w1 & -> & Hcase).
    cbn [bind].
    destruct Hcase as [[Hlt Hrun1] | [Hge Hstop]].
    + apply (IH t w1 Hrun1 Hch).
    + exists w1. split; [apply (front_stopped_run w0 b blockId rest w1 Hstop) |].
      right. split; [| assumption].
      pose proof (chronological_last_time rest t Hch). lra.
Qed.

(** [moveBlock] with the angle 0, the speed 100 and the policy 'front'
    on a circle of radius 25 at (0, 0), in a window of width 200. *)
Lemma front_start w0 b component roster duration :
  Block.shape (blocks w0 b) = circle ->
  Block.size (blocks w0 b) = 25 ->
  Block.scale_x (blocks w0 b) = 0 ->
  Block.x (blocks w0 b) = 0 ->
  Block.y (blocks w0 b) = 0 ->
  innerWidth w0 = 200 ->
  duration <= 0 ->
  front_running w0 b (Block.id (blocks w0 b)) (now w0) (now w0)
    (moveBlock (VBlock b) (VNumber 0) (VNumber 100) (VComponent component)
       "front" "pass" duration roster w0).
Proof.
  intros Hshape Hsize Hscale Hx Hy Hw Hd.
  unfold moveBlock. rewrite ltb_false by lra.
  assert (Ec : cos (0 * PI / 180) * 100 = 100).
  { replace (0 * PI / 180) with 0 by lra. rewrite cos_0. lra. }
  assert (Es : sin (0 * PI / 180) * 100 = 0).
  { replace (0 * PI / 180) with 0 by lra. rewrite sin_0. lra. }
  rewrite Ec, Es.
  set (w1 := match activeBlockAnimations w0 !! Block.id (blocks w0 b) with
             | Some r => cancelAnimationFrame (AnimationData.animationFrameId (records w0 r)) w0
             | None => w0
             end).
  assert (Hblocks : blocks w1 = blocks w0) by (subst w1; destruct (_ !! _); reflexivity).
  assert (Hnow : now w1 = now w0) by (subst w1; destruct (_ !! _); reflexivity).
  assert (Hiw : innerWidth w1 = innerWidth w0) by (subst w1; destruct (_ !! _); reflexivity).
  assert (Hfr : forall h c, frames w1 !! h = Some c -> frames w0 !! h = Some c).
  { subst w1. intros h c. destruct (_ !! _); [| tauto]. cbn.
    intros Hl. apply lookup_delete_Some in Hl. tauto. }
  exists (S (next_object w1)), (next_frame w1), (next_object w1).
  cbn. rewrite !fn_lookup_insert, !lookup_insert_eq. cbn.
  rewrite Hblocks, Hnow, Hiw, Hshape, Hsize, Hscale, Hx, Hy, Hw.
  repeat match goal with |- _ /\ _ => split end; try reflexivity; try lra.
  intros h c. cbn. intros Hl.
  apply lookup_insert_Some in Hl as [[<- <-] | [Hne Hl]]; [left; left; reflexivity |].
  right. apply Hfr. assumption.
Qed.

(** C5. Under the policy 'front' an axis is in contact only when the
    speed on it points to an edge that the leading side has reached: the
    animation stops exactly when an axis is in contact, the leading side
    of an axis in contact is put on the viewport edge, and an axis with a
    zero speed, or a speed that points away, keeps its position. A circle
    of radius 25 that starts at (0, 0) with the angle 0 and the speed 100
    in a window of width 200 is, after frames that cover 1.75 seconds or
    more, at x = 175 with its animation record removed and none of its
    frames pending. *)
Theorem C5_front_stops_at_the_edge :
  (forall b vx vy screenWidth screenHeight,
      let r := boundary_front b vx vy screenWidth screenHeight in
      let contactX :=
        0 < vx /\ screenWidth <= Block.maxX (Block.getBounds b) \/
        vx < 0 /\ Block.minX (Block.getBounds b) <= 0 in
      let contactY :=
        0 < vy /\ screenHeight <= Block.maxY (Block.getBounds b) \/
        vy < 0 /\ Block.minY (Block.getBounds b) <= 0 in
      (snd r = true <-> contactX \/ contactY) /\
      (0 < vx -> screenWidth <= Block.maxX (Block.getBounds b) ->
       Block.maxX (Block.getBounds (fst r)) = screenWidth) /\
      (vx < 0 -> Block.minX (Block.getBounds b) <= 0 ->
       Block.minX (Block.getBounds (fst r)) = 0) /\
      (0 < vy -> screenHeight <= Block.maxY (Block.getBounds b) ->
       Block.maxY (Block.getBounds (fst r)) = screenHeight) /\
      (vy < 0 -> Block.minY (Block.getBounds b) <= 0 ->
       Block.minY (Block.getBounds (fst r)) = 0) /\
      (~ contactX -> Block.x (fst r) = Block.x b) /\
      (~ contactY -> Block.y (fst r) = Block.y b)) /\
  (forall w0 b component roster ts,
      Block.shape (blocks w0 b) = circle ->
      Block.size (blocks w0 b) = 25 ->
      Block.scale_x (blocks w0 b) = 0 ->
      Block.x (blocks w0 b) = 0 ->
      Block.y (blocks w0 b) = 0 ->
      innerWidth w0 = 200 ->
      chronological (now w0) ts ->
      now w0 + 1750 <= last_time (now w0) ts ->
      exists w',
        run_ticks (Block.id (blocks w0 b)) ts
          (moveBlock (VBlock b) (VNumber 0) (VNumber 100) (VComponent component)
             "front" "pass" 0 roster w0) = Returned w' /\
        Block.x (blocks w' b) = 175 /\
        Block.y (blocks w' b) = 0 /\
        activeBlockAnimations w' !! Block.id (blocks w0 b) = None /\
        no_new_frames w0 w' []).
Proof.
  split; [apply boundary_front_axes |].
  intros w0 b component roster ts Hshape Hsize Hscale Hx Hy Hw Hch Hlast.
  pose proof (front_start w0 b component roster 0 Hshape Hsize Hscale Hx Hy Hw
                ltac:(lra)) as Hstart.
  destruct (front_run w0 b _ (now w0) ts (now w0) _ Hstart Hch)
    as (w' & Hrun & [[Hlt _] | [_ (Ha & Hx' & Hy' & Hnew)]]); [lra |].
  exists w'. repeat split; assumption.
Qed.

(** A circle that has passed the right edge, and the scenario with
    frames at 1 and 2 seconds. *)
Lemma C5_front_stops_at_the_edge_witness :
  Block.maxX
    (Block.getBounds (fst (boundary_front (circle_at "ball" 180 0 25) 100 0 200 100)))
  = 200 /\
  exists w',
    run_ticks "ball" [1000; 2000]
      (moveBlock (VBlock 0) (VNumber 0) (VNumber 100) (VComponent 0)
         "front" "pass" 0 [0%nat] front_scene) = Returned w' /\
    Block.x (blocks w' 0%nat) = 175 /\
    Block.y (blocks w' 0%nat) = 0 /\
    activeBlockAnimations w' !! "ball" = None /\
    no_new_frames front_scene w' [].
Proof.
  split.
  - apply (proj1 C5_front_stops_at_the_edge (circle_at "ball" 180 0 25) 100 0 200 100).
    + lra.
    + unfold Block.getBounds, Block.radiusX. cbn. lra.
  - apply (proj2 C5_front_stops_at_the_edge front_scene 0%nat 0%nat [0%nat]
             [1000; 2000]); try reflexivity; cbn; lra.
Defined.
(** ** Reading the heaps *)

Ltac heap_side := solve [assumption | congruence | lia | discriminate].

(** Reads of updated heaps. *)
Ltac heap :=
  repeat first
    [ rewrite fn_lookup_alter
    | rewrite fn_lookup_alter_ne by heap_side
    | rewrite fn_lookup_insert
    | rewrite fn_lookup_insert_ne by heap_side ].

(** ** The resolution of one collision *)

Lemma overlapping_blocks_differ c o w r1 r2 :
  overlapping c o w r1 r2 -> Closure.blockObject (closures w c) <> o.
Proof. intros (Hid & _) E. apply Hid. rewrite E. reflexivity. Qed.

(** Scaling both offsets of a pair by [k >= 0] scales the distance. *)
Lemma sqrt_scaled dx dy k :
  0 <= k -> sqrt (k * dx * (k * dx) + k * dy * (k * dy)) = k * sqrt (dx * dx + dy * dy).
Proof.
  intros Hk.
  replace (k * dx * (k * dx) + k * dy * (k * dy)) with (k * k * (dx * dx + dy * dy)) by ring.
  rewrite sqrt_mult_alt by nra. rewrite sqrt_square by assumption. reflexivity.
Qed.

(** Two blocks pushed apart along the line of their centres, each by
    half of what they overlap, touch. *)
Lemma pushed_apart_tangent A B total :
  0 < distance A B -> distance A B <= total ->
  let d := distance A B in
  let overlap := total - d in
  distance
    (Block.set_y (Block.y A - overlap * ((Block.y B - Block.y A) / d) * 0.5)
       (Block.set_x (Block.x A - overlap * ((Block.x B - Block.x A) / d) * 0.5) A))
    (Block.set_y (Block.y B + overlap * ((Block.y B - Block.y A) / d) * 0.5)
       (Block.set_x (Block.x B + overlap * ((Block.x B - Block.x A) / d) * 0.5) B))
  = total.
Proof.
  intros Hd Ht d overlap. unfold distance at 1. cbn.
  set (dx := Block.x B - Block.x A). set (dy := Block.y B - Block.y A).
  assert (Ehalf : 0.5 = / 2) by lra. rewrite !Ehalf.
  replace (Block.x B + overlap * (dx / d) * / 2 - (Block.x A - overlap * (dx / d) * / 2))
    with (total / d * dx) by (unfold overlap, dx; field; unfold d; lra).
  replace (Block.y B + overlap * (dy / d) * / 2 - (Block.y A - overlap * (dy / d) * / 2))
    with (total / d * dy) by (unfold overlap, dy; field; unfold d; lra).
  rewrite sqrt_scaled.
  - change (sqrt (dx * dx + dy * dy)) with d. field. unfold d. lra.
  - apply Rle_mult_inv_pos; unfold d; lra.
Qed.

(** Line 375: a roster entry with the identifier of the moving block is
    skipped. *)
Lemma collide_self c o w :
  Block.id (blocks w (Closure.blockObject (closures w c))) = Block.id (blocks w o) ->
  collide c o w = Returned w.
Proof.
  intros E. unfold collide.
  rewrite (proj2 (String.eqb_eq _ _) E). reflexivity.
Qed.

(** Line 384: circles that do not overlap are left alone. *)
Lemma collide_apart c o w :
  Block.radiusX (blocks w (Closure.blockObject (closures w c)))
  + Block.radiusX (blocks w o)
  <= distance (blocks w (Closure.blockObject (closures w c))) (blocks w o) ->
  collide c o w = Returned w.
Proof.
  intros H. unfold collide.
  destruct (String.eqb _ _); [reflexivity |].
  destruct (Block.shape _); [reflexivity |].
  destruct (Block.shape _); [reflexivity |].
  fold (distance (blocks w (Closure.blockObject (closures w c))) (blocks w o)).
  rewrite ltb_false by assumption. reflexivity.
Qed.

(** Lines 391-414: the policy 'stop' on an overlapping pair with distinct
    centres. *)
Lemma collide_stop c o w r1 r2 :
  overlapping c o w r1 r2 ->
  Closure.collision (closures w c) = c_stop ->
  let b := Closure.blockObject (closures w c) in
  let A := blocks w b in
  let B := blocks w o in
  let d := distance A B in
  let overlap := Block.radiusX A + Block.radiusX B - d in
  0 < d ->
  exists w',
    collide c o w = Returned w' /\
    blocks w' b
    = Block.set_y (Block.y A - overlap * ((Block.y B - Block.y A) / d) * 0.5)
        (Block.set_x (Block.x A - overlap * ((Block.x B - Block.x A) / d) * 0.5) A) /\
    blocks w' o
    = Block.set_y (Block.y B + overlap * ((Block.y B - Block.y A) / d) * 0.5)
        (Block.set_x (Block.x B + overlap * ((Block.x B - Block.x A) / d) * 0.5) B) /\
    (forall k, k <> b -> k <> o -> blocks w' k = blocks w k) /\
    AnimationData.currentSpeedX (records w' r1) = 0 /\
    AnimationData.currentSpeedY (records w' r1) = 0 /\
    AnimationData.currentSpeedX (records w' r2) = 0 /\
    AnimationData.currentSpeedY (records w' r2) = 0 /\
    activeBlockAnimations w'
    = delete (Block.id B) (delete (Block.id A) (activeBlockAnimations w)) /\
    frames w'
    = delete (AnimationData.animationFrameId (records w r2))
        (delete (AnimationData.animationFrameId (records w r1)) (frames w)) /\
    closures w' = closures w /\
    visuals w'
    = Visual (Closure.owningComponent (closures w c)) (Block.id B)
        (Block.x B + overlap * ((Block.x B - Block.x A) / d) * 0.5)
        (Block.y B + overlap * ((Block.y B - Block.y A) / d) * 0.5)
      :: Visual (Closure.owningComponent (closures w c)) (Block.id A)
           (Block.x A - overlap * ((Block.x B - Block.x A) / d) * 0.5)
           (Block.y A - overlap * ((Block.y B - Block.y A) / d) * 0.5)
      :: visuals w.
Proof.
  intros Hov Hstop b A B d overlap Hd.
  pose proof (overlapping_blocks_differ _ _ _ _ _ Hov) as Hbo. fold b in Hbo.
  destruct Hov as (Hid & HsA & HsB & Hclose & Hr1 & Hr2 & Hr).
  fold b in Hid, HsA, Hclose, Hr1. fold A in Hid, HsA, Hclose, Hr1.
  fold B in Hid, HsB, Hclose, Hr2. fold d in Hclose.
  unfold collide. fold b. fold A. fold B.
  assert (Eid : String.eqb (Block.id A) (Block.id B) = false)
    by (apply String.eqb_neq; assumption).
  rewrite Eid, HsA, HsB. fold (distance A B). fold d.
  rewrite (ltb_true _ _ Hclose), Hr1, Hr2, Hstop.
  rewrite eqb_false by lra.
  eexists. split; [reflexivity |].
  assert (Hob : o <> b) by congruence.
  unfold stopMovingBlock. cbn. heap. cbn. fold A B. rewrite Hr1. cbn. heap. cbn.
  fold A B. rewrite lookup_delete_ne by assumption. rewrite Hr2. cbn. heap.
  repeat match goal with |- _ /\ _ => split end; try reflexivity.
  intros k Hkb Hko. heap. reflexivity.
Qed.

(** Lines 399-401 at coinciding centres: [dx / distance] is [0 / 0]. *)
Lemma collide_stop_concentric c o w r1 r2 :
  overlapping c o w r1 r2 ->
  Closure.collision (closures w c) = c_stop ->
  distance (blocks w (Closure.blockObject (closures w c))) (blocks w o) = 0 ->
  exists w', collide c o w = NotANumber w' /\
    blocks w' = blocks w /\
    activeBlockAnimations w' = activeBlockAnimations w /\
    visuals w' = visuals w.
Proof.
  intros (Hid & HsA & HsB & Hclose & Hr1 & Hr2 & Hr) Hstop Hd.
  unfold collide.
  rewrite (proj2 (String.eqb_neq _ _) Hid), HsA, HsB.
  fold (distance (blocks w (Closure.blockObject (closures w c))) (blocks w o)).
  rewrite (ltb_true _ _ Hclose), Hr1, Hr2, Hstop, Hd.
  rewrite eqb_true by reflexivity.
  eexists. split; [reflexivity |]. repeat split.
Qed.
Lemma sum_squares_nonneg a b : 0 <= a * a + b * b.
Proof. nra. Qed.

(** The collision normal of an overlapping pair with distinct centres is
    a unit vector. *)
Lemma normal_unit A B :
  0 < distance A B ->
  let nx := (Block.x B - Block.x A) / distance A B in
  let ny := (Block.y B - Block.y A) / distance A B in
  nx * nx + ny * ny = 1.
Proof.
  intros Hd nx ny. unfold nx, ny.
  assert (E : distance A B * distance A B
              = (Block.x B - Block.x A) * (Block.x B - Block.x A)
                + (Block.y B - Block.y A) * (Block.y B - Block.y A)).
  { unfold distance. apply sqrt_sqrt. apply sum_squares_nonneg. }
  set (d := distance A B) in *. set (dx := Block.x B - Block.x A) in *.
  set (dy := Block.y B - Block.y A) in *.
  replace (dx / d * (dx / d) + dy / d * (dy / d)) with ((dx * dx + dy * dy) / (d * d))
    by (field; lra).
  rewrite <- E. field. lra.
Qed.

(** Lines 429-442 for a unit normal [(nx, ny)]: the components of the two
    velocities along the normal are exchanged, those along the tangent
    [(-ny, nx)] are kept. *)
Lemma exchange_along_normal v1x v1y v2x v2y nx ny :
  nx * nx + ny * ny = 1 ->
  let tx := - ny in
  let ty := nx in
  let dp_norm1 := v1x * nx + v1y * ny in
  let dp_tan1 := v1x * tx + v1y * ty in
  let dp_norm2 := v2x * nx + v2y * ny in
  let dp_tan2 := v2x * tx + v2y * ty in
  let new_v1x := dp_norm2 * nx + dp_tan1 * tx in
  let new_v1y := dp_norm2 * ny + dp_tan1 * ty in
  let new_v2x := dp_norm1 * nx + dp_tan2 * tx in
  let new_v2y := dp_norm1 * ny + dp_tan2 * ty in
  new_v1x * nx + new_v1y * ny = dp_norm2 /\
  new_v2x * nx + new_v2y * ny = dp_norm1 /\
  new_v1x * tx + new_v1y * ty = dp_tan1 /\
  new_v2x * tx + new_v2y * ty = dp_tan2.
Proof.
  intros Hn tx ty dp_norm1 dp_tan1 dp_norm2 dp_tan2 new_v1x new_v1y new_v2x new_v2y.
  unfold new_v1x, new_v1y, new_v2x, new_v2y, tx, ty.
  repeat split.
  - replace ((dp_norm2 * nx + dp_tan1 * - ny) * nx + (dp_norm2 * ny + dp_tan1 * nx) * ny)
      with (dp_norm2 * (nx * nx + ny * ny)) by ring. rewrite Hn. ring.
  - replace ((dp_norm1 * nx + dp_tan2 * - ny) * nx + (dp_norm1 * ny + dp_tan2 * nx) * ny)
      with (dp_norm1 * (nx * nx + ny * ny)) by ring. rewrite Hn. ring.
  - replace ((dp_norm2 * nx + dp_tan1 * - ny) * - ny + (dp_norm2 * ny + dp_tan1 * nx) * nx)
      with (dp_tan1 * (nx * nx + ny * ny)) by ring. rewrite Hn. ring.
  - replace ((dp_norm1 * nx + dp_tan2 * - ny) * - ny + (dp_norm1 * ny + dp_tan2 * nx) * nx)
      with (dp_tan2 * (nx * nx + ny * ny)) by ring. rewrite Hn. ring.
Qed.

(** Lines 416-467: the policy 'bounce' on an overlapping pair with
    distinct centres. *)
Lemma collide_bounce c o w r1 r2 :
  overlapping c o w r1 r2 ->
  Closure.collision (closures w c) = c_bounce ->
  let b := Closure.blockObject (closures w c) in
  let A := blocks w b in
  let B := blocks w o in
  let d := distance A B in
  let overlap := Block.radiusX A + Block.radiusX B - d in
  let nx := (Block.x B - Block.x A) / d in
  let ny := (Block.y B - Block.y A) / d in
  let v1x := AnimationData.currentSpeedX (records w r1) in
  let v1y := AnimationData.currentSpeedY (records w r1) in
  let v2x := AnimationData.currentSpeedX (records w r2) in
  let v2y := AnimationData.currentSpeedY (records w r2) in
  let new_v1x := (v2x * nx + v2y * ny) * nx + (v1x * - ny + v1y * nx) * - ny in
  let new_v1y := (v2x * nx + v2y * ny) * ny + (v1x * - ny + v1y * nx) * nx in
  let new_v2x := (v1x * nx + v1y * ny) * nx + (v2x * - ny + v2y * nx) * - ny in
  let new_v2y := (v1x * nx + v1y * ny) * ny + (v2x * - ny + v2y * nx) * nx in
  0 < d ->
  exists w',
    collide c o w = Returned w' /\
    blocks w' b
    = Block.set_y (Block.y A - overlap * ny * 0.5)
        (Block.set_x (Block.x A - overlap * nx * 0.5) A) /\
    blocks w' o
    = Block.set_y (Block.y B + overlap * ny * 0.5)
        (Block.set_x (Block.x B + overlap * nx * 0.5) B) /\
    (forall k, k <> b -> k <> o -> blocks w' k = blocks w k) /\
    records w' r1
    = AnimationData.set_angle (Num.atan2 new_v1y new_v1x * 180 / PI)
        (AnimationData.set_currentSpeedY new_v1y
           (AnimationData.set_currentSpeedX new_v1x (records w r1))) /\
    records w' r2
    = AnimationData.set_angle (Num.atan2 new_v2y new_v2x * 180 / PI)
        (AnimationData.set_currentSpeedY new_v2y
           (AnimationData.set_currentSpeedX new_v2x (records w r2))) /\
    (forall k, k <> r1 -> k <> r2 -> records w' k = records w k) /\
    activeBlockAnimations w' = activeBlockAnimations w /\
    frames w' = frames w /\
    next_frame w' = next_frame w /\
    closures w' = closures w /\
    visuals w'
    = Visual (Closure.owningComponent (closures w c)) (Block.id B)
        (Block.x B + overlap * nx * 0.5) (Block.y B + overlap * ny * 0.5)
      :: Visual (Closure.owningComponent (closures w c)) (Block.id A)
           (Block.x A - overlap * nx * 0.5) (Block.y A - overlap * ny * 0.5)
      :: visuals w.
Proof.
  intros Hov Hbounce b A B d overlap nx ny v1x v1y v2x v2y
    new_v1x new_v1y new_v2x new_v2y Hd.
  pose proof (overlapping_blocks_differ _ _ _ _ _ Hov) as Hbo. fold b in Hbo.
  destruct Hov as (Hid & HsA & HsB & Hclose & Hr1 & Hr2 & Hr).
  fold b in Hid, HsA, Hclose, Hr1. fold A in Hid, HsA, Hclose, Hr1.
  fold B in Hid, HsB, Hclose, Hr2. fold d in Hclose.
  unfold collide. fold b. fold A. fold B.
  assert (Eid : String.eqb (Block.id A) (Block.id B) = false)
    by (apply String.eqb_neq; assumption).
  rewrite Eid, HsA, HsB. fold (distance A B). fold d.
  rewrite (ltb_true _ _ Hclose), Hr1, Hr2, Hbounce.
  rewrite eqb_false by lra.
  eexists. split; [reflexivity |].
  assert (Hob : o <> b) by congruence.
  assert (Hr' : r2 <> r1) by congruence.
  cbn. heap. cbn. fold A B.
  repeat match goal with |- _ /\ _ => split end; try reflexivity.
  - intros k Hkb Hko. heap. reflexivity.
  - intros k Hk1 Hk2. heap. reflexivity.
Qed.

(** Lines 422-423 at coinciding centres: [dx / distance] is [0 / 0]. *)
Lemma collide_bounce_concentric c o w r1 r2 :
  overlapping c o w r1 r2 ->
  Closure.collision (closures w c) = c_bounce ->
  distance (blocks w (Closure.blockObject (closures w c))) (blocks w o) = 0 ->
  collide c o w = NotANumber w.
Proof.
  intros (Hid & HsA & HsB & Hclose & Hr1 & Hr2 & Hr) Hb Hd.
  unfold collide.
  rewrite (proj2 (String.eqb_neq _ _) Hid), HsA, HsB.
  fold (distance (blocks w (Closure.blockObject (closures w c))) (blocks w o)).
  rewrite (ltb_true _ _ Hclose), Hr1, Hr2, Hb, Hd.
  rewrite eqb_true by reflexivity. reflexivity.
Qed.
(** ** Scenes *)

(** [circle_at] is what the constructor returns for the options [id],
    ['circle'], [x], [y] and [size]. *)
Lemma circle_at_constructed id x y radius generated :
  id <> EmptyString -> radius <> 0 ->
  Block.constructor
    (Options.make (Some id) (Some "circle") (Some x) (Some y) (Some radius)
       None None None None None None) generated
  = circle_at id x y radius.
Proof.
  intros Hid Hr. unfold Block.constructor, circle_at. cbn.
  rewrite (proj2 (String.eqb_neq _ _) Hid).
  rewrite (eqb_false radius 0) by assumption.
  f_equal; unfold Num.eqb; destruct (Req_dec_T _ 0); congruence.
Qed.

(** [moveBlock] with valid arguments, for a block that has no animation
    yet and with no duration. *)
Lemma moveBlock_fresh b angle pps component boundary collision duration roster w :
  activeBlockAnimations w !! Block.id (blocks w b) = None ->
  duration <= 0 ->
  moveBlock (VBlock b) (VNumber angle) (VNumber pps) (VComponent component)
    boundary collision duration roster w
  = mkWorld (blocks w)
      (<[S (next_object w) :=
           AnimationData.make (next_frame w) (Block.id (blocks w b)) component b
             angle pps (now w) (cos (angle * PI / 180) * pps)
             (sin (angle * PI / 180) * pps)]> (records w))
      (<[next_object w :=
           Closure.make b component (boundary_of_string boundary)
             (collision_of_string collision) roster (Block.id (blocks w b))
             (cos (angle * PI / 180) * pps) (sin (angle * PI / 180) * pps)
             (now w) (innerWidth w) (innerHeight w) (S (next_object w))]>
         (closures w))
      (<[Block.id (blocks w b) := S (next_object w)]> (activeBlockAnimations w))
      (<[next_frame w := next_object w]> (frames w))
      (S (next_frame w)) (S (S (next_object w))) (timeouts w) (console w)
      (visuals w) (now w) (innerWidth w) (innerHeight w).
Proof.
  intros Hnone Hd. unfold moveBlock. rewrite Hnone, ltb_false by lra. reflexivity.
Qed.

Lemma cos_deg_0 p : cos (0 * PI / 180) * p = p.
Proof. replace (0 * PI / 180) with 0 by lra. rewrite cos_0. lra. Qed.

Lemma sin_deg_0 p : sin (0 * PI / 180) * p = 0.
Proof. replace (0 * PI / 180) with 0 by lra. rewrite sin_0. lra. Qed.

Lemma edge_scene_state :
  frames edge_scene !! 0%nat = Some 0%nat /\
  closures edge_scene 0
  = Closure.make 0 0 front c_stop [0%nat; 1%nat] "a" 100 0 0 200 200 1 /\
  blocks edge_scene 0 = circle_at "a" 185 100 10 /\
  blocks edge_scene 1 = circle_at "b" 200 100 10 /\
  activeBlockAnimations edge_scene !! "a" = Some 1%nat /\
  activeBlockAnimations edge_scene !! "b" = Some 3%nat /\
  AnimationData.animationFrameId (records edge_scene 1) = 0%nat /\
  AnimationData.animationFrameId (records edge_scene 3) = 1%nat /\
  visuals edge_scene = [].
Proof.
  unfold edge_scene, edge_scene_a.
  rewrite (moveBlock_fresh 0) by (reflexivity || lra).
  rewrite (moveBlock_fresh 1) by (reflexivity || lra).
  cbn. rewrite !cos_deg_0, !sin_deg_0. heap.
  rewrite lookup_insert_ne by done. rewrite !lookup_insert_eq.
  rewrite lookup_insert_ne by done. rewrite !lookup_insert_eq.
  repeat split.
Qed.

Lemma sqrt_of_square d x : 0 <= d -> x = d * d -> sqrt x = d.
Proof. intros Hd ->. apply sqrt_square. assumption. Qed.

(** C4, at a tick that is terminal after a 'stop' collision. In the scene
    [edge_scene] the frame of "a" at 100 ms moves "a" to x = 195, the
    policy 'front' puts it back on the right edge (x = 190) and sets
    [stopAnimation]; the collision with "b" under the policy 'stop'
    pushes "a" to x = 185 and removes the records of both; the visuals of
    "a" are updated with that position; then line 476 reads
    [animationFrameId] of the record of "a", which is gone: the tick
    raises a [TypeError]. *)
Theorem C4_terminal_tick_after_stop_collision_throws :
  exists w' x y rest,
    run_frame 0 100 edge_scene = Thrown w' /\
    visuals w' = Visual 0 "a" x y :: rest /\ x = 185 /\ y = 100 /\
    activeBlockAnimations w' !! "a" = None.
Proof.
  destruct edge_scene_state as (Hf & Hc & HA & HB & Ha & Hb & Hh1 & Hh3 & Hv).
  set (w := edge_scene) in *. clearbody w.
  unfold run_frame. rewrite Hf. unfold animate.
  (* lines 248-285: the move and the stop at the right edge *)
  unfold integrate, boundary_logic. cbn. heap. rewrite Hc. cbn. heap. rewrite HA.
  unfold boundary_front. cbn. unfold Block.radiusX, Block.radiusY. cbn. rtest. cbn.
  match goal with
  | |- context [collision_logic 0 ?u] => set (w2 := u)
  end.
  assert (Hc2 : closures w2 0
                = Closure.make 0 0 front c_stop [0%nat; 1%nat] "a" 100 0 100 200 200 1)
    by (subst w2; cbn; heap; rewrite Hc; reflexivity).
  assert (HA2 : blocks w2 0
                = Block.set_x (200 - 10 * (1 + 0 / 100))
                    (Block.set_y (100 + 0 * ((100 - 0) / 1000))
                       (Block.set_x (185 + 100 * ((100 - 0) / 1000))
                          (circle_at "a" 185 100 10))))
    by (subst w2; cbn; heap; reflexivity).
  assert (HB2 : blocks w2 1 = circle_at "b" 200 100 10)
    by (subst w2; cbn; heap; assumption).
  assert (Hact2 : activeBlockAnimations w2 = activeBlockAnimations w) by reflexivity.
  assert (Hvis2 : visuals w2 = visuals w) by reflexivity.
  (* lines 373-414: the collision with "b" under the policy 'stop' *)
  assert (Hd : distance (blocks w2 0) (blocks w2 1) = 10).
  { rewrite HA2, HB2. unfold distance. cbn. apply sqrt_of_square; lra. }
  assert (Hov : overlapping 0 1 w2 1 3).
  { unfold overlapping. rewrite Hc2. cbn [Closure.blockObject]. rewrite Hd.
    rewrite HA2, HB2, Hact2. cbn. unfold Block.radiusX. cbn.
    repeat split; try assumption; try discriminate; try lra; try lia. }
  unfold collision_logic. rewrite Hc2. cbn [Closure.collision Closure.allBlocks collision_loop].
  rewrite collide_self by (rewrite Hc2; reflexivity). cbn [bind].
  destruct (collide_stop 0 1 w2 1 3 Hov) as
    (w3 & -> & HA3 & HB3 & _ & _ & _ & _ & _ & Hact3 & _ & Hc3 & Hvis3).
  { rewrite Hc2. reflexivity. }
  { rewrite Hc2. cbn [Closure.blockObject]. rewrite Hd. lra. }
  rewrite Hc2 in HA3, HB3, Hact3, Hvis3. cbn [Closure.blockObject] in *.
  rewrite Hd in HA3, HB3, Hvis3.
  (* lines 473-476 *)
  cbn [bind]. rewrite Hc3, Hc2. cbn [Closure.blockId Closure.owningComponent Closure.blockObject].
  assert (Hgone : activeBlockAnimations w3 !! "a" = None).
  { rewrite Hact3, HA2, HB2. cbn. rewrite lookup_delete_ne by done.
    apply lookup_delete_eq. }
  cbn. rewrite Hgone.
  eexists _, _, _, _. split; [reflexivity |].
  cbn. split; [reflexivity |].
  rewrite HA3, HA2, HB2. cbn. unfold Block.radiusX. cbn.
  repeat split; try lra. assumption.
Qed.
(** ** Collision policy 'stop' *)

(** A pair resolved under the policy 'stop', with distinct centres, ends
    with both record speeds at zero, the centres as far apart as the sum
    of the radii, and no animation record for either body; resolving the
    pair again changes nothing. *)
Lemma collide_stop_separates c o w r1 r2 :
  overlapping c o w r1 r2 ->
  Closure.collision (closures w c) = c_stop ->
  0 < distance (blocks w (Closure.blockObject (closures w c))) (blocks w o) ->
  exists w',
    collide c o w = Returned w' /\
    AnimationData.currentSpeedX (records w' r1) = 0 /\
    AnimationData.currentSpeedY (records w' r1) = 0 /\
    AnimationData.currentSpeedX (records w' r2) = 0 /\
    AnimationData.currentSpeedY (records w' r2) = 0 /\
    distance (blocks w' (Closure.blockObject (closures w c))) (blocks w' o)
    = Block.radiusX (blocks w (Closure.blockObject (closures w c)))
      + Block.radiusX (blocks w o) /\
    activeBlockAnimations w'
      !! Block.id (blocks w (Closure.blockObject (closures w c))) = None /\
    activeBlockAnimations w' !! Block.id (blocks w o) = None /\
    collide c o w' = Returned w'.
Proof.
  intros Hov Hstop Hd.
  destruct (collide_stop c o w r1 r2 Hov Hstop Hd)
    as (w' & Hw' & HA & HB & _ & H1x & H1y & H2x & H2y & Hact & _ & Hcl & _).
  destruct Hov as (Hid & HsA & HsB & Hclose & Hr1 & Hr2 & Hr).
  exists w'. split; [assumption |]. repeat split; try assumption.
  - rewrite HA, HB. apply pushed_apart_tangent; [assumption | lra].
  - rewrite Hact. rewrite lookup_delete_ne by congruence. apply lookup_delete_eq.
  - rewrite Hact. apply lookup_delete_eq.
  - apply collide_apart. rewrite Hcl, HA, HB.
    rewrite pushed_apart_tangent by (assumption || lra).
    unfold Block.radiusX. cbn. lra.
Qed.

Lemma stack_scene_state :
  frames stack_scene !! 0%nat = Some 0%nat /\
  closures stack_scene 0
  = Closure.make 0 0 front c_stop [0%nat; 1%nat] "a" 0 0 0 200 200 1 /\
  blocks stack_scene 0 = circle_at "a" 0 0 10 /\
  blocks stack_scene 1 = circle_at "b" 0 0 10 /\
  activeBlockAnimations stack_scene !! "a" = Some 1%nat /\
  activeBlockAnimations stack_scene !! "b" = Some 3%nat.
Proof.
  unfold stack_scene, stack_scene_a.
  rewrite (moveBlock_fresh 0) by (reflexivity || lra).
  rewrite (moveBlock_fresh 1) by (reflexivity || lra).
  cbn. rewrite !cos_deg_0, !sin_deg_0. heap.
  rewrite lookup_insert_ne by done. rewrite !lookup_insert_eq.
  rewrite lookup_insert_ne by done. rewrite !lookup_insert_eq.
  repeat split.
Qed.

(** C6, at two circles with the same centre. The frame of "a" finds "b"
    overlapping (distance 0 below the radii sum 20), zeroes the speeds of
    both records, and then divides the zero offset by the zero distance:
    the separation is [NaN], the pair is not pushed to tangency. Up to
    that point no position has changed and both records are still in the
    table. *)
Theorem C6_stop_at_coinciding_centres_is_not_a_number :
  exists w',
    run_frame 0 16 stack_scene = NotANumber w' /\
    distance (blocks w' 0) (blocks w' 1) = 0 /\
    Block.radiusX (blocks w' 0) + Block.radiusX (blocks w' 1) = 20 /\
    activeBlockAnimations w' !! "a" = Some 1%nat /\
    activeBlockAnimations w' !! "b" = Some 3%nat.
Proof.
  destruct stack_scene_state as (Hf & Hc & HA & HB & Ha & Hb).
  set (w := stack_scene) in *. clearbody w.
  unfold run_frame. rewrite Hf. unfold animate.
  unfold integrate, boundary_logic. cbn. heap. rewrite Hc. cbn. heap. rewrite HA.
  unfold boundary_front. cbn. rtest. cbn.
  match goal with
  | |- context [collision_logic 0 ?u] => set (w2 := u)
  end.
  assert (Hc2 : closures w2 0
                = Closure.make 0 0 front c_stop [0%nat; 1%nat] "a" 0 0 16 200 200 1)
    by (subst w2; cbn; heap; rewrite Hc; reflexivity).
  assert (HA2 : blocks w2 0
                = Block.set_y (0 + 0 * ((16 - 0) / 1000))
                    (Block.set_x (0 + 0 * ((16 - 0) / 1000)) (circle_at "a" 0 0 10)))
    by (subst w2; cbn; heap; reflexivity).
  assert (HB2 : blocks w2 1 = circle_at "b" 0 0 10)
    by (subst w2; cbn; heap; assumption).
  assert (Hact2 : activeBlockAnimations w2 = activeBlockAnimations w) by reflexivity.
  assert (Hd : distance (blocks w2 0) (blocks w2 1) = 0).
  { rewrite HA2, HB2. unfold distance. cbn. apply sqrt_of_square; lra. }
  assert (Hov : overlapping 0 1 w2 1 3).
  { unfold overlapping. rewrite Hc2. cbn [Closure.blockObject]. rewrite Hd.
    rewrite HA2, HB2, Hact2. cbn. unfold Block.radiusX. cbn.
    repeat split; try assumption; try discriminate; try lra; try lia. }
  unfold collision_logic. rewrite Hc2.
  cbn [Closure.collision Closure.allBlocks collision_loop].
  rewrite collide_self by (rewrite Hc2; reflexivity). cbn [bind].
  destruct (collide_stop_concentric 0 1 w2 1 3 Hov) as (w3 & -> & Hb3 & Hact3 & _).
  { rewrite Hc2. reflexivity. }
  { rewrite Hc2. exact Hd. }
  cbn [bind]. exists w3. split; [reflexivity |].
  rewrite Hb3, Hact3, Hact2. rewrite Hd. rewrite HA2, HB2.
  unfold Block.radiusX. cbn.
  repeat split; try assumption; lra.
Qed.
(** ** Collision policy 'bounce' *)

Lemma cos_deg_180 p : cos (180 * PI / 180) * p = - p.
Proof. replace (180 * PI / 180) with PI by lra. rewrite cos_PI. lra. Qed.

Lemma sin_deg_180 p : sin (180 * PI / 180) * p = 0.
Proof. replace (180 * PI / 180) with PI by lra. rewrite sin_PI. lra. Qed.

Lemma atan2_left y x : y = 0 -> x < 0 -> Num.atan2 y x * 180 / PI = 180.
Proof.
  intros -> Hx. unfold Num.atan2. rtest.
  replace (0 / x) with 0 by (unfold Rdiv; lra). rewrite atan_0.
  pose proof PI_RGT_0. field. lra.
Qed.

Lemma atan2_right y x : y = 0 -> 0 < x -> Num.atan2 y x * 180 / PI = 0.
Proof.
  intros -> Hx. unfold Num.atan2. rtest.
  replace (0 / x) with 0 by (unfold Rdiv; lra). rewrite atan_0.
  pose proof PI_RGT_0. field. lra.
Qed.

Lemma duel_scene_state :
  frames duel_scene !! 0%nat = Some 0%nat /\
  closures duel_scene 0
  = Closure.make 0 0 pass c_bounce [0%nat; 1%nat] "a" 50 0 0 1000 1000 1 /\
  closures duel_scene 2
  = Closure.make 1 0 pass c_bounce [0%nat; 1%nat] "b" (- 50) 0 0 1000 1000 3 /\
  blocks duel_scene 0 = circle_at "a" 100 100 10 /\
  blocks duel_scene 1 = circle_at "b" 115 100 10 /\
  activeBlockAnimations duel_scene !! "a" = Some 1%nat /\
  activeBlockAnimations duel_scene !! "b" = Some 3%nat /\
  records duel_scene 1 = AnimationData.make 0 "a" 0 0 0 50 0 50 0 /\
  records duel_scene 3 = AnimationData.make 1 "b" 0 1 180 50 0 (- 50) 0 /\
  next_frame duel_scene = 2%nat.
Proof.
  unfold duel_scene, duel_scene_a.
  rewrite (moveBlock_fresh 0) by (reflexivity || lra).
  rewrite (moveBlock_fresh 1) by (reflexivity || lra).
  cbn. rewrite !cos_deg_0, !sin_deg_0, !cos_deg_180, !sin_deg_180. heap.
  rewrite lookup_insert_ne by done. rewrite !lookup_insert_eq.
  rewrite lookup_insert_ne by done. rewrite !lookup_insert_eq.
  repeat split.
Qed.

(** C1, at the head-on pair. In the scene [duel_scene] the frame of "a"
    at 100 ms resolves the collision with "b": the records take the
    exchanged velocities, (-50, 0) with the angle 180 for "a" and (50, 0)
    with the angle 0 for "b", and the blocks are pushed to x = 100 and
    x = 120. The closures still hold (50, 0) and (-50, 0), and lines
    253-257 read the closures: the next frame of "b" moves it to
    x = 115, toward "a", and the next frame of "a" moves it to x = 105,
    toward "b". *)
Theorem C1_bounce_exchange_is_not_integrated :
  exists w',
    run_frame 0 100 duel_scene = Returned w' /\
    AnimationData.currentSpeedX (records w' 1) = - 50 /\
    AnimationData.currentSpeedY (records w' 1) = 0 /\
    AnimationData.angle (records w' 1) = 180 /\
    AnimationData.currentSpeedX (records w' 3) = 50 /\
    AnimationData.currentSpeedY (records w' 3) = 0 /\
    AnimationData.angle (records w' 3) = 0 /\
    Closure.currentSpeedX (closures w' 0) = 50 /\
    Closure.currentSpeedX (closures w' 2) = - 50 /\
    Block.x (blocks w' 0) = 100 /\
    Block.x (blocks w' 1) = 120 /\
    Block.x (blocks (integrate 2 100 w') 1) = 115 /\
    Block.x (blocks (integrate 0 200 w') 0) = 105.
Proof.
  destruct duel_scene_state
    as (Hf & Hc & HcB & HA & HB & Ha & Hb & Hr1 & Hr3 & Hnf).
  set (w := duel_scene) in *. clearbody w.
  unfold run_frame. rewrite Hf. unfold animate.
  (* lines 248-257 and 358-370: the move, and a wrap that changes nothing *)
  unfold integrate, boundary_logic. cbn. heap. rewrite Hc. cbn. heap. rewrite HA.
  unfold boundary_pass. cbn. unfold Block.radiusX, Block.radiusY. cbn.
  rewrite !positiveModulo_small by lra. cbn.
  match goal with
  | |- context [collision_logic 0 ?u] => set (w2 := u)
  end.
  assert (Hc2 : closures w2 0
                = Closure.make 0 0 pass c_bounce [0%nat; 1%nat] "a" 50 0 100 1000 1000 1)
    by (subst w2; cbn; heap; rewrite Hc; reflexivity).
  assert (HcB2 : closures w2 2 = closures w 2) by (subst w2; cbn; heap; reflexivity).
  assert (HA2 : Block.id (blocks w2 0) = "a" /\ Block.shape (blocks w2 0) = circle /\
                Block.x (blocks w2 0) = 105 /\ Block.y (blocks w2 0) = 100 /\
                Block.radiusX (blocks w2 0) = 10).
  { subst w2. cbn. heap. unfold Block.radiusX. cbn. repeat split; lra. }
  destruct HA2 as (HAid & HAs & HAx & HAy & HAr).
  assert (HB2 : blocks w2 1 = circle_at "b" 115 100 10)
    by (subst w2; cbn; heap; assumption).
  assert (Hact2 : activeBlockAnimations w2 = activeBlockAnimations w) by reflexivity.
  assert (Hrec2 : records w2 = records w) by reflexivity.
  assert (Hnf2 : next_frame w2 = next_frame w) by reflexivity.
  clearbody w2.
  (* lines 373-467: the collision with "b" under the policy 'bounce' *)
  assert (Hd : distance (blocks w2 0) (blocks w2 1) = 10).
  { unfold distance. rewrite HAx, HAy, HB2. cbn. apply sqrt_of_square; lra. }
  assert (Hov : overlapping 0 1 w2 1 3).
  { unfold overlapping. rewrite Hc2. cbn [Closure.blockObject]. rewrite Hd.
    rewrite HAid, HAs, HAr, HB2, Hact2. cbn. unfold Block.radiusX. cbn.
    repeat split; try assumption; try discriminate; try lra; try lia. }
  unfold collision_logic. rewrite Hc2.
  cbn [Closure.collision Closure.allBlocks collision_loop].
  rewrite collide_self by (rewrite Hc2; reflexivity). cbn [bind].
  destruct (collide_bounce 0 1 w2 1 3 Hov) as
    (w3 & -> & HA3 & HB3 & _ & Hr13 & Hr33 & _ & Hact3 & _ & Hnf3 & Hc3 & _).
  { rewrite Hc2. reflexivity. }
  { rewrite Hc2. cbn [Closure.blockObject]. rewrite Hd. lra. }
  rewrite Hc2 in HA3, HB3, Hr13, Hr33. cbn [Closure.blockObject] in *.
  rewrite Hd, Hrec2, Hr1, Hr3, HAx, HAy, HAr, HB2 in *.
  cbn [bind]. rewrite Hc3, Hc2.
  cbn [Closure.blockId Closure.owningComponent Closure.blockObject].
  rewrite Hact3, Hact2, Ha.
  eexists. split; [reflexivity |].
  cbn. heap. rewrite ?Hc3, ?Hc2, ?HcB2, ?HcB. cbn. heap.
  rewrite ?Hr13, ?Hr33, ?HA3, ?HB3. cbn. unfold Block.radiusX. cbn.
  repeat match goal with |- _ /\ _ => split end; try lra.
  - apply atan2_left; lra.
  - apply atan2_right; lra.
Qed.
(** ** How many collisions a tick resolves *)

















(** Under the policy 'bounce' no resolution removes a record. *)
Lemma collide_bounce_keeps_records c o w :
  Closure.collision (closures w c) = c_bounce ->
  activeBlockAnimations (world_of (collide c o w)) = activeBlockAnimations w.
Proof.
  intros Hb. unfold collide. rewrite Hb.
  repeat match goal with
  | |- context [if ?t then _ else _] => destruct t
  | |- context [match ?t with _ => _ end] => destruct t
  end; reflexivity.
Qed.


(** ** The viewport of a tick *)

Lemma integrate_resize c t width height w :
  integrate c t (resize_window width height w)
  = resize_window width height (integrate c t w).
Proof. reflexivity. Qed.

Lemma boundary_logic_resize c width height w :
  boundary_logic c (resize_window width height w)
  = match boundary_logic c w with
    | Returned p => Returned (resize_window width height (fst p), snd p)
    | Thrown w' => Thrown (resize_window width height w')
    | NotANumber w' => NotANumber (resize_window width height w')
    end.
Proof.
  unfold boundary_logic. cbn [closures blocks resize_window].
  destruct (Closure.boundary (closures w c)).
  - destruct (boundary_front _ _ _ _ _). reflexivity.
  - destruct (boundary_back _ _ _ _ _). reflexivity.
  - destruct (boundary_pass _ _ _); reflexivity.
  - destruct (bounced _); reflexivity.
Qed.

Lemma stopMovingBlock_resize blockId width height w :
  stopMovingBlock blockId (resize_window width height w)
  = resize_window width height (stopMovingBlock blockId w).
Proof.
  unfold stopMovingBlock. cbn [activeBlockAnimations resize_window].
  destruct (_ !! _); reflexivity.
Qed.

Lemma collide_resize c o width height w :
  collide c o (resize_window width height w)
  = outcome_map (resize_window width height) (collide c o w).
Proof.
  unfold collide. cbn [closures blocks activeBlockAnimations records resize_window].
  repeat match goal with
  | |- context [if ?t then _ else _] => destruct t
  | |- context [match ?t with _ => _ end] => destruct t
  end; try reflexivity.
  cbn [outcome_map]. f_equal.
  rewrite <- !stopMovingBlock_resize. reflexivity.
Qed.

Lemma collision_loop_resize c others width height : forall w,
  collision_loop c others (resize_window width height w)
  = outcome_map (resize_window width height) (collision_loop c others w).
Proof.
  induction others as [| o rest IH]; intros w; [reflexivity |].
  cbn [collision_loop]. rewrite collide_resize.
  destruct (collide c o w); cbn [outcome_map bind]; [apply IH | reflexivity..].
Qed.

Lemma collision_logic_resize c width height w :
  collision_logic c (resize_window width height w)
  = outcome_map (resize_window width height) (collision_logic c w).
Proof.
  unfold collision_logic. cbn [closures resize_window].
  destruct (Closure.collision _); try apply collision_loop_resize; reflexivity.
Qed.

Lemma finish_resize c stopAnimation width height w :
  finish c stopAnimation (resize_window width height w)
  = outcome_map (resize_window width height) (finish c stopAnimation w).
Proof.
  unfold finish. cbn.
  destruct stopAnimation; destruct (_ !! _); reflexivity.
Qed.

(** The extents of the window at the time of a tick have no part in it. *)
Lemma animate_resize c t width height w :
  animate c t (resize_window width height w)
  = outcome_map (resize_window width height) (animate c t w).
Proof.
  unfold animate. rewrite integrate_resize, boundary_logic_resize.
  destruct (boundary_logic c (integrate c t w)) as [[w1 stop] | w1 | w1];
    cbn [bind fst snd outcome_map]; try reflexivity.
  rewrite collision_logic_resize.
  destruct (collision_logic c w1) as [w2 | w2 | w2];
    cbn [bind outcome_map]; try reflexivity.
  apply finish_resize.
Qed.

(** No tick writes to the extents a closure holds. *)
Lemma animate_keeps_extents c t w c' :
  Closure.screenWidth (closures (world_of (animate c t w)) c')
  = Closure.screenWidth (closures w c') /\
  Closure.screenHeight (closures (world_of (animate c t w)) c')
  = Closure.screenHeight (closures w c').
Proof.
  unfold animate.
  assert (H1 : forall c', Closure.screenWidth (closures (integrate c t w) c')
                          = Closure.screenWidth (closures w c') /\
                          Closure.screenHeight (closures (integrate c t w) c')
                          = Closure.screenHeight (closures w c')).
  { intros k. unfold integrate. cbn.
    destruct (decide (c = k)) as [-> | Hne].
    - rewrite fn_lookup_alter. split; reflexivity.
    - rewrite fn_lookup_alter_ne by assumption. split; reflexivity. }
  assert (H2 : forall w1 c',
             Closure.screenWidth
               (closures match boundary_logic c w1 with
                         | Returned p => fst p
                         | Thrown w' => w'
                         | NotANumber w' => w'
                         end c')
             = Closure.screenWidth (closures w1 c') /\
             Closure.screenHeight
               (closures match boundary_logic c w1 with
                         | Returned p => fst p
                         | Thrown w' => w'
                         | NotANumber w' => w'
                         end c')
             = Closure.screenHeight (closures w1 c')).
  { intros w1 k. unfold boundary_logic.
    destruct (Closure.boundary (closures w1 c)).
    - destruct (boundary_front _ _ _ _ _). split; reflexivity.
    - destruct (boundary_back _ _ _ _ _). split; reflexivity.
    - destruct (boundary_pass _ _ _); split; reflexivity.
    - destruct (bounced _); cbn;
        (destruct (decide (c = k)) as [-> | Hne];
         [rewrite fn_lookup_alter | rewrite fn_lookup_alter_ne by assumption];
         split; reflexivity). }
  specialize (H2 (integrate c t w) c'). specialize (H1 c').
  destruct (boundary_logic c (integrate c t w)) as [[w1 stop] | w1 | w1];
    cbn [bind fst snd world_of] in *.
  2,3: (destruct H1 as [<- <-]; exact H2).
  pose proof (collision_logic_closures c w1) as Hc.
  destruct (collision_logic c w1) as [w2 | w2 | w2]; cbn [bind world_of] in *.
  2,3: (rewrite Hc; destruct H1 as [<- <-]; exact H2).
  rewrite finish_closures, Hc. destruct H1 as [<- <-]. exact H2.
Qed.

(** C3, as the code has it. [moveBlock] reads the extents of the window
    once, when the motion starts, into the closure; no tick writes to
    them; and a tick in a resized window does what it does in the window
    as it was: a resize reaches a body only through a new [moveBlock]. *)
Theorem C3_ticks_use_the_extents_of_the_start :
  (forall b angle pps component boundary collision duration roster w,
      let w' := moveBlock (VBlock b) (VNumber angle) (VNumber pps)
                  (VComponent component) boundary collision duration roster w in
      Closure.screenWidth (closures w' (next_object w)) = innerWidth w /\
      Closure.screenHeight (closures w' (next_object w)) = innerHeight w) /\
  (forall c t w c',
      Closure.screenWidth (closures (world_of (animate c t w)) c')
      = Closure.screenWidth (closures w c') /\
      Closure.screenHeight (closures (world_of (animate c t w)) c')
      = Closure.screenHeight (closures w c')) /\
  (forall c t width height w,
      animate c t (resize_window width height w)
      = outcome_map (resize_window width height) (animate c t w)).
Proof.
  split; [| split; [apply animate_keeps_extents | apply animate_resize]].
  intros b angle pps component boundary collision duration roster w w'.
  subst w'. unfold moveBlock.
  destruct (activeBlockAnimations w !! Block.id (blocks w b));
    destruct (Num.ltb 0 duration); cbn; rewrite fn_lookup_insert; split; reflexivity.
Qed.

(** C3, against the claim: the scenario of the policy 'front' with the
    window made 400 wide after the start. The frame at 2 seconds finds
    the ball at x = 200, its leading side at 225; the window is 400 wide
    then, and the boundary logic on the extents of that time would
    neither move nor stop the ball; the tick puts it back on the edge of
    the 200 wide window of the start and ends the motion. *)
Lemma C3_resized_window_is_not_seen :
  exists w',
    innerWidth resized_scene = 400 /\
    tick_block "ball" 2000 resized_scene = Returned w' /\
    Block.x (blocks w' 0) = 175 /\
    activeBlockAnimations w' !! "ball" = None /\
    boundary_front (circle_at "ball" 200 0 25) 100 0 400 100
    = (circle_at "ball" 200 0 25, false).
Proof.
  assert (Hrun : front_running front_scene 0 "ball" 0 0 resized_scene).
  { exact (front_start front_scene 0%nat 0%nat [0%nat] 0
             eq_refl eq_refl eq_refl eq_refl eq_refl eq_refl ltac:(lra)). }
  destruct (front_tick front_scene 0%nat "ball" 0 0 2000 resized_scene Hrun ltac:(lra))
    as (w' & Hw' & [[Hlt _] | [_ (Ha & Hx & _)]]); [lra |].
  exists w'. split; [reflexivity |]. split; [assumption |].
  split; [assumption |]. split; [assumption |].
  unfold boundary_front. cbn. unfold Block.radiusX, Block.radiusY. cbn. rtest.
  reflexivity.
Qed.
